(** * gql-types-generator: the schema-to-type projection core

    A shallow embedding of [src/utils/misc.ts] (the type-reference
    resolvers, the sorter, the naming and formatting helpers, the
    field-path navigator), of the entity and operation parsers built on
    top of it and of [withCwd] of [src/fs.ts], together with the
    properties the specification states about them and further properties
    of the code.

    Conventions of the embedding.
    - A JavaScript string is a [string]; the names the program handles are
      GraphQL names and TypeScript type expressions, which are ASCII.
    - A JavaScript array that is filled by [push] is a [list] threaded
      through the calls that share it; [push] appends at the end.
    - A function that can throw returns a [completion]: either the value it
      returns or the exception it raises.
    - The GraphQL type objects of a schema reference each other (and
      themselves); a reference to a named type is kept as its name and
      followed through the schema's type map. *)

From stdpp Require Import base option list strings gmap.
From Stdlib Require Import ZArith Ascii String Lia.

Set Warnings "-register-all".

Local Open Scope Z_scope.
Local Open Scope string_scope.
Local Open Scope list_scope.

(** ** Exceptions and completions *)

(** [Error message] is [new Error(message)], thrown by the program itself;
    [TypeError] is the engine's exception for reading a property of
    [undefined] or [null]. *)
Inductive exn : Type :=
| Error (message : string)
| TypeError.

Inductive completion (A : Type) : Type :=
| Return (value : A)
| Throw (e : exn).
Arguments Return {A} value.
Arguments Throw {A} e.

Definition bind {A B : Type} (c : completion A) (k : A -> completion B)
  : completion B :=
  match c with
  | Return a => k a
  | Throw e => Throw e
  end.

Notation "'let*' x ':=' c 'in' k" := (bind c (fun x => k))
  (at level 10, x pattern, c at level 100, k at level 200).

Definition throws {A : Type} (c : completion A) : Prop :=
  exists e, c = Throw e.

Definition returns {A : Type} (c : completion A) : Prop :=
  exists a, c = Return a.

(** ** Arrays used as ordered sets *)

(** [arr.includes(x)] *)
Definition includes (arr : list string) (x : string) : bool :=
  bool_decide (x ∈ arr).

(** [if (!arr.includes(x)) arr.push(x)] : the new content of [arr]. *)
Definition pushIfAbsent (arr : list string) (x : string) : list string :=
  if includes arr x then arr else arr ++ [x].

(** [src.forEach(t => { if (!dst.includes(t)) dst.push(t) })] *)
Definition addAll (dst src : list string) : list string :=
  foldl pushIfAbsent dst src.

(** ** Scalar map *)

Definition gqlScalarTypesMap : list (string * string) :=
  [ ("Boolean", "boolean");
    ("Float", "number");
    ("String", "string");
    ("Int", "number");
    ("ID", "any") ].

(** [Object.keys(gqlScalarTypesMap)] *)
Definition gqlScalarTypes : list string := gqlScalarTypesMap.*1.

Definition isGQLScalarType (value : string) : bool :=
  includes gqlScalarTypes value.

(** [gqlScalarTypesMap[value]] *)
Fixpoint getProperty (obj : list (string * string)) (key : string)
  : option string :=
  match obj with
  | [] => None
  | (k, v) :: rest => if bool_decide (k = key) then Some v
                      else getProperty rest key
  end.

Definition transpileGQLTypeName (value : string) : string :=
  if isGQLScalarType value
  then default "undefined" (getProperty gqlScalarTypesMap value)
  else value.

Definition makeNullable (type : string) : string := type +:+ " | null".

(** ** Type references *)

(** The syntax-tree form: [TypeNode] of the GraphQL AST. *)
Inductive TypeNode : Type :=
| NamedType (name : string)
| ListType (type : TypeNode)
| NonNullType (type : TypeNode).

(** The schema-object form: a named type object (kept as its name), or a
    [GraphQLList] or [GraphQLNonNull] wrapper around [ofType]. *)
Inductive GraphQLType : Type :=
| GraphQLNamed (name : string)
| GraphQLList (ofType : GraphQLType)
| GraphQLNonNull (ofType : GraphQLType).

Record DefinitionWithImportTypes : Type := mkDefinition {
  definition : string;
  importTypes : list string;
}.

(** The conditional push both resolvers perform:
    [if (!isGQLScalarType(t) && !importTypes.includes(t))
       importTypes.push(t)] *)
Definition pushCustom (importTypes : list string) (t : string) : list string :=
  if negb (isGQLScalarType t) && negb (includes importTypes t)
  then importTypes ++ [t]
  else importTypes.

(** [getTypeNodeDefinition(node, importTypes, nullable)].  [importTypes] is
    the content of the array on entry; the result's [importTypes] is the
    content of that same array on return (the function returns the array it
    was given).  In the list case the array returned by the recursive call
    is the array itself, so the [forEach] walks its content at that point
    while pushing into it. *)
Fixpoint getTypeNodeDefinition (node : TypeNode) (importTypes : list string)
    (nullable : bool) : DefinitionWithImportTypes :=
  match node with
  | NonNullType type => getTypeNodeDefinition type importTypes false
  | NamedType name =>
      let definition := transpileGQLTypeName name in
      let importTypes := pushCustom importTypes name in
      let definition := if nullable then makeNullable definition
                        else definition in
      mkDefinition definition importTypes
  | ListType type =>
      let '(mkDefinition _definition _importTypes) :=
        getTypeNodeDefinition type importTypes true in
      let importTypes := foldl pushCustom _importTypes _importTypes in
      let definition := _definition +:+ "[]" in
      let definition := if nullable then makeNullable definition
                        else definition in
      mkDefinition definition importTypes
  end.

(** [getIOTypeDefinition(type, importTypes, nullable)], with the same
    treatment of the shared array. *)
Fixpoint getIOTypeDefinition (type : GraphQLType) (importTypes : list string)
    (nullable : bool) : DefinitionWithImportTypes :=
  match type with
  | GraphQLNonNull ofType => getIOTypeDefinition ofType importTypes false
  | GraphQLList ofType =>
      let '(mkDefinition _definition _importTypes) :=
        getIOTypeDefinition ofType importTypes true in
      let importTypes := foldl pushCustom _importTypes _importTypes in
      let definition := _definition +:+ "[]" in
      let definition := if nullable then makeNullable definition
                        else definition in
      mkDefinition definition importTypes
  | GraphQLNamed name =>
      let definition := transpileGQLTypeName name in
      let importTypes := pushCustom importTypes name in
      let definition := if nullable then makeNullable definition
                        else definition in
      mkDefinition definition importTypes
  end.

(** The type object a syntax-tree reference denotes: same wrappers, same
    leaf name. *)
Inductive denotes : TypeNode -> GraphQLType -> Prop :=
| denotes_named name :
    denotes (NamedType name) (GraphQLNamed name)
| denotes_list node type :
    denotes node type -> denotes (ListType node) (GraphQLList type)
| denotes_nonnull node type :
    denotes node type -> denotes (NonNullType node) (GraphQLNonNull type).

(** ** Top-level declaration ordering *)

Inductive TypeDefinitionKind : Type :=
| ScalarTypeDefinition
| EnumTypeDefinition
| InterfaceTypeDefinition
| InputObjectTypeDefinition
| UnionTypeDefinition
| ObjectTypeDefinition.

(** The declaration node of a named type: its [kind] and [loc.start]. *)
Record TypeDefinitionNode : Type := mkTypeDefinitionNode {
  kind : TypeDefinitionKind;
  loc_start : nat;
}.

(** [weights[kind]] *)
Definition weights (k : TypeDefinitionKind) : Z :=
  match k with
  | ScalarTypeDefinition => 0
  | EnumTypeDefinition => 1
  | InterfaceTypeDefinition => 2
  | InputObjectTypeDefinition => 3
  | UnionTypeDefinition => 4
  | ObjectTypeDefinition => 5
  end.

(** [getSorter(display)(a, b)], on the [astNode] of the two named types.
    [display] is the display mode as the string the caller passes; only
    ['as-is'] is tested for. *)
Definition getSorter (display : string)
    (a b : option TypeDefinitionNode) : Z :=
  match a, b with
  | None, None => 0
  | None, Some _ => -1
  | Some _, None => 1
  | Some na, Some nb =>
      if bool_decide (display = "as-is")
      then Z.of_nat (loc_start na) - Z.of_nat (loc_start nb)
      else weights (kind na) - weights (kind nb)
  end.

(** ** Naming *)

Definition isDigit (c : ascii) : bool :=
  let n := nat_of_ascii c in ((48 <=? n) && (n <=? 57))%nat.

Definition isLower (c : ascii) : bool :=
  let n := nat_of_ascii c in ((97 <=? n) && (n <=? 122))%nat.

Definition isUpper (c : ascii) : bool :=
  let n := nat_of_ascii c in ((65 <=? n) && (n <=? 90))%nat.

(** The class [[\da-z]] under the [i] flag. *)
Definition isAlnum (c : ascii) : bool :=
  isDigit c || isLower c || isUpper c.

(** The characters [.] does not match. *)
Definition isLineTerminator (c : ascii) : bool :=
  let n := nat_of_ascii c in ((n =? 10) || (n =? 13))%nat.

(** [c.toUpperCase()] for one ASCII character; a character outside ASCII,
    which the names the program handles do not contain, is left as it
    is. *)
Definition toUpperCase (c : ascii) : ascii :=
  if isLower c then ascii_of_nat (nat_of_ascii c - 32) else c.

(** [text.replace(/[^\da-z].?/gi,
                  match => match[1] ? match[1].toUpperCase() : '')]:
    scanning from the left, a character of the class is kept; any other
    character starts a match, which also takes the next character unless
    that one is a line terminator or the text ends; the match is replaced
    by its second character in upper case, or by nothing when it has
    none. *)
Fixpoint clear (text : string) : string :=
  match text with
  | EmptyString => EmptyString
  | String c rest =>
      if isAlnum c then String c (clear rest)
      else match rest with
           | EmptyString => EmptyString
           | String d rest' =>
               if isLineTerminator d then clear rest
               else String (toUpperCase d) (clear rest')
           end
  end.

(** [toCamelCase(text)]: [cleared[0]] is [undefined] when [cleared] is
    empty, and calling [toUpperCase] on it raises a [TypeError]. *)
Definition toCamelCase (text : string) : completion string :=
  match clear text with
  | EmptyString => Throw TypeError
  | String c rest => Return (String (toUpperCase c) rest)
  end.

Definition getCompiledOperationName (name operation : string)
  : completion string :=
  let* op := toCamelCase operation in
  Return (name +:+ op).

Definition getCompiledOperationNamespaceName (name operation : string)
  : completion string :=
  let* n := toCamelCase name in
  let* op := toCamelCase operation in
  Return (n +:+ op).

(** ** The schema's type graph *)

Record GraphQLArgument : Type := mkArgument {
  arg_name : string;
  arg_description : option string;
  arg_type : GraphQLType;
}.

Record GraphQLField : Type := mkField {
  field_name : string;
  field_description : option string;
  field_type : GraphQLType;
  field_args : list GraphQLArgument;
}.

Record GraphQLInputField : Type := mkInputField {
  input_name : string;
  input_description : option string;
  input_type : GraphQLType;
}.

(** A [GraphQLObjectType] or a [GraphQLInterfaceType]: both carry a name, a
    description and a field map.  The field map is a JavaScript object
    keyed by field name; it is kept as the list of its values in insertion
    order, which is the order [Object.values] yields. *)
Record GraphQLObjectType : Type := mkObjectType {
  obj_name : string;
  obj_description : option string;
  obj_fields : list GraphQLField;
  obj_astNode : option TypeDefinitionNode;
}.

Record GraphQLInputObjectType : Type := mkInputObjectType {
  inobj_name : string;
  inobj_description : option string;
  inobj_fields : list GraphQLInputField;
  inobj_astNode : option TypeDefinitionNode;
}.

Inductive GraphQLNamedType : Type :=
| ScalarType (name : string) (description : option string)
    (astNode : option TypeDefinitionNode)
| EnumType (name : string) (description : option string)
    (values : list (string * option string))
    (astNode : option TypeDefinitionNode)
| UnionType (name : string) (description : option string)
    (types : list string) (astNode : option TypeDefinitionNode)
| ObjectType (type : GraphQLObjectType)
| InterfaceType (type : GraphQLObjectType)
| InputObjectType (type : GraphQLInputObjectType).

(** The named type objects of a schema, by name: what a [GraphQLNamed]
    reference points to. *)
Abbreviation TypeMap := (gmap string GraphQLNamedType).

Record GraphQLSchema : Type := mkSchema {
  queryType : option GraphQLObjectType;
  mutationType : option GraphQLObjectType;
  subscriptionType : option GraphQLObjectType;
  typeMap : TypeMap;
}.

Definition astNode (type : GraphQLNamedType) : option TypeDefinitionNode :=
  match type with
  | ScalarType _ _ node | EnumType _ _ _ node | UnionType _ _ _ node => node
  | ObjectType t | InterfaceType t => obj_astNode t
  | InputObjectType t => inobj_astNode t
  end.

(** The comparator [getSorter(display)] on two named types. *)
Definition sorter (display : string) (a b : GraphQLNamedType) : Z :=
  getSorter display (astNode a) (astNode b).

Inductive OperationTypeNode : Type := query | mutation | subscription.

(** The string an [OperationTypeNode] is. *)
Definition operationText (operation : OperationTypeNode) : string :=
  match operation with
  | query => "query"
  | mutation => "mutation"
  | subscription => "subscription"
  end.

(** [getOperationRootNode(schema, operation)]: the schema's getters return
    [undefined] (here [None]) for a root the schema does not configure. *)
Definition getOperationRootNode (schema : GraphQLSchema)
    (operation : OperationTypeNode) : option GraphQLObjectType :=
  match operation with
  | query => queryType schema
  | mutation => mutationType schema
  | subscription => subscriptionType schema
  end.

(** [getFirstNonWrappingType(type)]: the named type under the wrappers, as
    its name. *)
Fixpoint getFirstNonWrappingType (type : GraphQLType) : string :=
  match type with
  | GraphQLNamed name => name
  | GraphQLList ofType | GraphQLNonNull ofType =>
      getFirstNonWrappingType ofType
  end.

(** [fields[key]] on a field map. *)
Fixpoint getField (fields : list GraphQLField) (key : string)
  : option GraphQLField :=
  match fields with
  | [] => None
  | f :: rest => if bool_decide (field_name f = key) then Some f
                 else getField rest key
  end.

(** [const [first, ...rest] = text.split('.')] *)
Fixpoint splitPath (text : string) : string * list string :=
  match text with
  | EmptyString => (EmptyString, [])
  | String c text' =>
      let '(first, rest) := splitPath text' in
      if bool_decide (c = "."%char) then (EmptyString, first :: rest)
      else (String c first, rest)
  end.

(** [rootNode.toConfig().fields]: graphql-js gives, under the name of
    every field of the field map, a [GraphQLFieldConfig].  A field config
    keeps the description and the type of the field and holds the
    arguments as a map from argument name to argument config; it has no
    [name]. *)
Record GraphQLArgumentConfig : Type := mkArgumentConfig {
  argconfig_description : option string;
  argconfig_type : GraphQLType;
}.

Record GraphQLFieldConfig : Type := mkFieldConfig {
  config_description : option string;
  config_type : GraphQLType;
  config_args : list (string * GraphQLArgumentConfig);
}.

Definition toFieldConfig (f : GraphQLField) : GraphQLFieldConfig :=
  mkFieldConfig (field_description f) (field_type f)
    ((fun a =>
        (arg_name a, mkArgumentConfig (arg_description a) (arg_type a)))
       <$> field_args f).

(** [type.toConfig().fields] *)
Definition toConfigFields (type : GraphQLObjectType)
  : list (string * GraphQLFieldConfig) :=
  (fun f => (field_name f, toFieldConfig f)) <$> obj_fields type.

(** [fields[key]] on a map of field configs. *)
Fixpoint getFieldConfig (fields : list (string * GraphQLFieldConfig))
    (key : string) : option GraphQLFieldConfig :=
  match fields with
  | [] => None
  | (k, config) :: rest => if bool_decide (k = key) then Some config
                           else getFieldConfig rest key
  end.

(** What the variable [field] of [getIn] holds, and what [getIn] returns:
    [GraphQLField<any, any> | GraphQLFieldConfig<any, any>]. *)
Inductive FieldOrConfig : Type :=
| IsConfig (config : GraphQLFieldConfig)
| IsField (field : GraphQLField).

(** [field.type] *)
Definition typeOf (field : FieldOrConfig) : GraphQLType :=
  match field with
  | IsConfig config => config_type config
  | IsField f => field_type f
  end.

(** The [for] loop of [getIn]: [field] is what the variable [field] holds
    so far, [restPartials] the partials from index [i] on.  The loop
    returns the field once the last partial has been consumed. *)
Fixpoint getInLoop (types : TypeMap) (path : string) (field : FieldOrConfig)
    (restPartials : list string) : completion FieldOrConfig :=
  match restPartials with
  | [] => Return field
  | partial :: restPartials' =>
      match types !! getFirstNonWrappingType (typeOf field) with
      | Some (ObjectType type) | Some (InterfaceType type) =>
          match getField (obj_fields type) partial with
          | None => Throw (Error ("Unable to find path " +:+ path))
          | Some field' =>
              getInLoop types path (IsField field') restPartials'
          end
      | _ => Throw (Error ("Unable to find path " +:+ path))
      end
  end.

(** [getIn(rootNode, path)].  [rootNode] is [None] when the caller passes
    [undefined]; [rootNode.toConfig()] then raises a [TypeError].  For a
    path of one partial the result is the field config found in
    [config.fields]; for a longer path it is the field found in the last
    [getFields()]. *)
Definition getIn (types : TypeMap) (rootNode : option GraphQLObjectType)
    (path : string) : completion FieldOrConfig :=
  let '(firstPartial, restPartials) := splitPath path in
  match rootNode with
  | None => Throw TypeError
  | Some root =>
      match getFieldConfig (toConfigFields root) firstPartial with
      | None => Throw (Error ("Unable to find path " +:+ path))
      | Some field => getInLoop types path (IsConfig field) restPartials
      end
  end.

(** The entries of the field maps [getIn] goes through: [findField] is the
    same descent, carried out on the entries of [getFields()] from the
    root on, and gives the entry of the last field map. *)
Fixpoint findFieldLoop (types : TypeMap) (path : string)
    (field : GraphQLField) (restPartials : list string)
  : completion GraphQLField :=
  match restPartials with
  | [] => Return field
  | partial :: restPartials' =>
      match types !! getFirstNonWrappingType (field_type field) with
      | Some (ObjectType type) | Some (InterfaceType type) =>
          match getField (obj_fields type) partial with
          | None => Throw (Error ("Unable to find path " +:+ path))
          | Some field' => findFieldLoop types path field' restPartials'
          end
      | _ => Throw (Error ("Unable to find path " +:+ path))
      end
  end.

Definition findField (types : TypeMap) (rootNode : option GraphQLObjectType)
    (path : string) : completion GraphQLField :=
  let '(firstPartial, restPartials) := splitPath path in
  match rootNode with
  | None => Throw TypeError
  | Some root =>
      match getField (obj_fields root) firstPartial with
      | None => Throw (Error ("Unable to find path " +:+ path))
      | Some field => findFieldLoop types path field restPartials
      end
  end.

(** ** Entities *)

Record PreparedObjectField : Type := mkPreparedField {
  pf_name : string;
  pf_description : option string;
  pf_type : string;
}.

Record PreparedObject : Type := mkPreparedObject {
  po_name : string;
  po_fields : list PreparedObjectField;
  po_importTypes : list string;
}.

Record EntityNamespaceField : Type := mkEntityNamespaceField {
  nf_name : string;
  nf_description : option string;
  nf_args : option PreparedObject;
  nf_type : string;
}.

(** [Entity]: [entity_name] and [entity_fields] are [fields.name] and
    [fields.fields]; [namespace_name], [namespace_description] and
    [namespace_fields] are the three properties of [namespace]. *)
Record Entity : Type := mkEntity {
  entity_name : string;
  entity_fields : list PreparedObjectField;
  namespace_name : string;
  namespace_description : option string;
  namespace_fields : list EntityNamespaceField;
  entity_importTypes : list string;
}.

(** The reducer over a field's [args] in [parseObjectOrInterfaceType]. *)
Definition prepareArgument (argAcc : PreparedObject) (arg : GraphQLArgument)
  : PreparedObject :=
  let '(mkDefinition definition importTypes) :=
    getIOTypeDefinition (arg_type arg) [] true in
  mkPreparedObject (po_name argAcc)
    (po_fields argAcc
       ++ [mkPreparedField (arg_name arg) (arg_description arg) definition])
    (addAll (po_importTypes argAcc) importTypes).

(** The reducer over the fields in [parseObjectOrInterfaceType]. *)
Definition addObjectField (formattedName : string) (acc : Entity)
    (f : GraphQLField) : Entity :=
  let fieldName := field_name f in
  let preparedArguments :=
    foldl prepareArgument (mkPreparedObject "Arguments" [] [])
      (field_args f) in
  let '(mkDefinition definition fImportTypes) :=
    getIOTypeDefinition (field_type f) [] true in
  mkEntity (entity_name acc)
    (entity_fields acc
       ++ [mkPreparedField fieldName (field_description f)
             (formattedName +:+ "." +:+ fieldName)])
    (namespace_name acc)
    (namespace_description acc)
    (namespace_fields acc
       ++ [mkEntityNamespaceField fieldName (field_description f)
             (Some preparedArguments) definition])
    (addAll (entity_importTypes acc)
       (fImportTypes ++ po_importTypes preparedArguments)).

Definition parseObjectOrInterfaceType (type : GraphQLObjectType)
  : completion Entity :=
  let* formattedName := toCamelCase (obj_name type) in
  Return
    (foldl (addObjectField formattedName)
       (mkEntity formattedName [] formattedName (obj_description type) [] [])
       (obj_fields type)).

(** The reducer over the fields in [parseInputObjectType]. *)
Definition addInputField (formattedName : string) (acc : Entity)
    (f : GraphQLInputField) : Entity :=
  let fieldName := input_name f in
  let '(mkDefinition definition fImportTypes) :=
    getIOTypeDefinition (input_type f) [] true in
  mkEntity (entity_name acc)
    (entity_fields acc
       ++ [mkPreparedField fieldName (input_description f)
             (formattedName +:+ "." +:+ fieldName)])
    (namespace_name acc)
    (namespace_description acc)
    (namespace_fields acc
       ++ [mkEntityNamespaceField fieldName (input_description f)
             None definition])
    (addAll (entity_importTypes acc) fImportTypes).

Definition parseInputObjectType (type : GraphQLInputObjectType)
  : completion Entity :=
  let* formattedName := toCamelCase (inobj_name type) in
  Return
    (foldl (addInputField formattedName)
       (mkEntity formattedName [] formattedName (inobj_description type)
          [] [])
       (inobj_fields type)).

(** ** Operations *)

(** The selection nodes of the GraphQL AST.  A [FieldNode] carries its
    name and its optional nested selection set; the other two kinds are
    the fragment spread and the inline fragment. *)
Inductive FieldNode : Type :=
| mkFieldNode (name : string) (selectionSet : option (list SelectionNode))
with SelectionNode : Type :=
| Field (node : FieldNode)
| FragmentSpread (name : string)
| InlineFragment (typeCondition : option string)
    (selectionSet : list SelectionNode).

Record VariableDefinitionNode : Type := mkVariableDefinition {
  variable : string;
  var_type : TypeNode;
}.

(** [OperationDefinitionNode]: [op_name] is [None] for an anonymous
    operation; [op_loc] is [(loc.start, loc.end)]. *)
Record OperationDefinitionNode : Type := mkOperationDefinition {
  op_name : option string;
  op_operation : OperationTypeNode;
  op_variableDefinitions : list VariableDefinitionNode;
  op_selectionSet : list SelectionNode;
  op_loc : nat * nat;
}.

(** The [type] of a composite namespace field. *)
Record SelectionType : Type := mkSelectionType {
  st_name : string;
  st_fields : list PreparedObjectField;
  st_outputType : GraphQLType;
}.

(** [OperationNamespaceField]: a leaf [{name, type}] whose [type] is a
    resolved definition, or a composite [{name, type, fields}]. *)
Inductive OperationNamespaceField : Type :=
| LeafField (name : string) (type : DefinitionWithImportTypes)
| CompositeField (name : string) (type : SelectionType)
    (fields : list OperationNamespaceField).

Record OperationRootNamespace : Type := mkRootNamespace {
  ns_name : string;
  ns_fields : list OperationNamespaceField;
  ns_args : PreparedObject;
  ns_importTypes : list string;
}.

(** The [selection] of an operation: [{name, fields}]. *)
Record OperationSelection : Type := mkSelection {
  sel_name : string;
  sel_fields : list PreparedObjectField;
}.

Record Operation : Type := mkOperation {
  operation_name : string;
  operation_signature : string;
  operation_selection : OperationSelection;
  operation_namespace : OperationRootNamespace;
  operation_importTypes : list string;
}.

(** The reducer of [parseOperationVariableDefinitions]. *)
Definition addVariable (acc : PreparedObject) (n : VariableDefinitionNode)
  : PreparedObject :=
  let '(mkDefinition definition importTypes) :=
    getTypeNodeDefinition (var_type n) [] true in
  mkPreparedObject (po_name acc)
    (po_fields acc ++ [mkPreparedField (variable n) None definition])
    (addAll (po_importTypes acc) importTypes).

Definition parseOperationVariableDefinitions
    (nodes : list VariableDefinitionNode) : PreparedObject :=
  foldl addVariable (mkPreparedObject "Arguments" [] []) nodes.

(** The reducer shared by [selectionSetToObjectFields] and by the [type]
    of a composite field: a [Field] selection pushes
    [{name, type: prefix.name}], any other selection leaves [acc] as it
    is. *)
Definition addObjectFieldOf (prefix : string)
    (acc : list PreparedObjectField) (s : SelectionNode)
  : list PreparedObjectField :=
  match s with
  | Field (mkFieldNode name _) =>
      acc ++ [mkPreparedField name None (prefix +:+ "." +:+ name)]
  | _ => acc
  end.

Definition selectionSetToObjectFields (selections : list SelectionNode)
    (nspName : string) : list PreparedObjectField :=
  foldl (addObjectFieldOf nspName) [] selections.

(** [selectionSet.selections.reduce(...)] of
    [selectionSetToNamespaceFields], from the accumulator [acc]: a [Field]
    selection pushes its conversion [convert s], any other selection
    leaves [acc] as it is. *)
Definition reduceNamespaceFields
    (convert : FieldNode -> completion OperationNamespaceField)
  : list SelectionNode -> list OperationNamespaceField ->
    completion (list OperationNamespaceField) :=
  fix reduce selections acc :=
    match selections with
    | [] => Return acc
    | Field s :: rest =>
        let* f := convert s in
        reduce rest (acc ++ [f])
    | _ :: rest => reduce rest acc
    end.

(** [fieldNodeToNamespaceField(node, rootNode, prevPath)]; the children of
    a composite field are
    [selectionSetToNamespaceFields(node.selectionSet, rootNode, path)]. *)
Fixpoint fieldNodeToNamespaceField (types : TypeMap) (node : FieldNode)
    (rootNode : option GraphQLObjectType) (prevPath : string)
    {struct node} : completion OperationNamespaceField :=
  match node with
  | mkFieldNode nodeName selectionSet =>
      let path := if (0 <? String.length prevPath)%nat
                  then prevPath +:+ "." +:+ nodeName
                  else nodeName in
      let* field := getIn types rootNode path in
      let outputType := typeOf field in
      match selectionSet with
      | Some selections =>
          let* fields :=
            reduceNamespaceFields
              (fun s => fieldNodeToNamespaceField types s rootNode path)
              selections [] in
          Return
            (CompositeField nodeName
               (mkSelectionType nodeName
                  (foldl (addObjectFieldOf nodeName) [] selections)
                  outputType)
               fields)
      | None =>
          Return (LeafField nodeName (getIOTypeDefinition outputType [] true))
      end
  end.

Definition selectionSetToNamespaceFields (types : TypeMap)
    (selections : list SelectionNode) (rootNode : option GraphQLObjectType)
    (path : string) : completion (list OperationNamespaceField) :=
  reduceNamespaceFields
    (fun s => fieldNodeToNamespaceField types s rootNode path)
    selections [].

(** [getImportTypes(field)]: [types] starts empty and [addType] pushes
    what it does not include yet. *)
Fixpoint getImportTypes (field : OperationNamespaceField) : list string :=
  match field with
  | LeafField _ type => addAll [] (importTypes type)
  | CompositeField _ _ fields =>
      addAll [] (flat_map getImportTypes fields)
  end.

Definition selectionSetToRootNamespace (types : TypeMap)
    (selections : list SelectionNode) (compiledName : string)
    (args : PreparedObject) (rootNode : option GraphQLObjectType)
  : completion OperationRootNamespace :=
  let* nspFields :=
    selectionSetToNamespaceFields types selections rootNode "" in
  let importTypes := flat_map getImportTypes nspFields in
  Return (mkRootNamespace compiledName nspFields args importTypes).

(** [text.slice(start, end)] for positions [start] and [end] of [text]. *)
Definition slice (text : string) (start end_ : nat) : string :=
  substring start (end_ - start) text.

Definition parseOperationDefinitionNode (node : OperationDefinitionNode)
    (schema : GraphQLSchema) (operationsString : string)
  : completion Operation :=
  let* name := match op_name node with
               | Some value => Return value
               | None => Throw TypeError
               end in
  let operation := op_operation node in
  let selectionSet := op_selectionSet node in
  let* operationName :=
    getCompiledOperationName name (operationText operation) in
  let* operationNamespaceName :=
    getCompiledOperationNamespaceName name (operationText operation) in
  let rootNode := getOperationRootNode schema operation in
  let selection :=
    mkSelection operationName
      (selectionSetToObjectFields selectionSet operationNamespaceName) in
  let args :=
    parseOperationVariableDefinitions (op_variableDefinitions node) in
  let importTypes := addAll [] (po_importTypes args) in
  let* namespace :=
    selectionSetToRootNamespace (typeMap schema) selectionSet
      operationNamespaceName args rootNode in
  let importTypes := addAll importTypes (ns_importTypes namespace) in
  Return
    (mkOperation operationName
       (slice operationsString (fst (op_loc node)) (snd (op_loc node)))
       selection namespace importTypes).

(** ** The example schema *)

Module Example.

Definition nonNull (name : string) : GraphQLType :=
  GraphQLNonNull (GraphQLNamed name).

Definition field (name description : string) (type : GraphQLType)
  : GraphQLField :=
  mkField name (Some description) type [].

Definition PostAuthor : GraphQLObjectType :=
  mkObjectType "PostAuthor" (Some "Author of post")
    [ field "name" "User full name" (nonNull "String");
      field "registeredAt" "Date when user was registered"
        (nonNull "DateTime");
      field "bannedAt" "Date when user was banned"
        (GraphQLNamed "DateTime") ]
    (Some (mkTypeDefinitionNode ObjectTypeDefinition 0)).

Definition postFields : list GraphQLField :=
  [ field "id" "Post id" (nonNull "ID");
    field "author" "Post author" (nonNull "PostAuthor");
    field "text" "Post content" (nonNull "String");
    field "category" "Post category" (nonNull "CATEGORY");
    field "createdAt" "Date when post was created" (nonNull "DateTime");
    field "updatedAt" "Date when post was updated"
      (GraphQLNamed "DateTime");
    field "deletedAt" "Date when post was deleted"
      (GraphQLNamed "DateTime") ].

Definition PostedPost : GraphQLObjectType :=
  mkObjectType "PostedPost" (Some "Post that already was posted")
    (postFields
       ++ [field "postedAt" "Date when post was posted"
             (nonNull "DateTime")])
    (Some (mkTypeDefinitionNode ObjectTypeDefinition 534)).

Definition Query : GraphQLObjectType :=
  mkObjectType "Query" (Some "Root Query type")
    [ mkField "post" (Some "Get certain post") (GraphQLNamed "PostedPost")
        [mkArgument "id" None (nonNull "ID")];
      mkField "posts" (Some "Ge posts with limit and offset")
        (GraphQLNonNull (GraphQLList (nonNull "PostedPost")))
        [mkArgument "input" None (GraphQLNamed "PostsInput")] ]
    (Some (mkTypeDefinitionNode ObjectTypeDefinition 1507)).

Definition PostsInput : GraphQLInputObjectType :=
  mkInputObjectType "PostsInput" (Some "Input to get posts")
    [ mkInputField "limit" None (nonNull "Int");
      mkInputField "offset" None (nonNull "Int") ]
    (Some (mkTypeDefinitionNode InputObjectTypeDefinition 1307)).

Definition types : TypeMap :=
  list_to_map
    [ ("PostAuthor", ObjectType PostAuthor);
      ("PostedPost", ObjectType PostedPost);
      ("Query", ObjectType Query);
      ("PostsInput", InputObjectType PostsInput);
      ("DateTime",
       ScalarType "DateTime" None
         (Some (mkTypeDefinitionNode ScalarTypeDefinition 1900)));
      ("String", ScalarType "String" None None);
      ("Int", ScalarType "Int" None None);
      ("ID", ScalarType "ID" None None) ].

(** The schema, with its query root only. *)
Definition queryOnly : GraphQLSchema :=
  mkSchema (Some Query) None None types.

Definition leaf (name : string) : SelectionNode :=
  Field (mkFieldNode name None).

(** [{ post { createdAt } posts { createdAt } }] *)
Definition twoPosts : list SelectionNode :=
  [ Field (mkFieldNode "post" (Some [leaf "createdAt"]));
    Field (mkFieldNode "posts" (Some [leaf "createdAt"])) ].

End Example.

(** ** Vocabulary of the specification *)

(** [leafOf type name]: [name] is the named type left once every List and
    NonNull layer of [type] is stripped. *)
Inductive leafOf : GraphQLType -> string -> Prop :=
| leafOf_named name : leafOf (GraphQLNamed name) name
| leafOf_list type name :
    leafOf type name -> leafOf (GraphQLList type) name
| leafOf_nonnull type name :
    leafOf type name -> leafOf (GraphQLNonNull type) name.

(** [descendable types type fields]: stripped of its wrappers, [type] is an
    object or interface type of the schema, whose field map is [fields]. *)
Definition descendable (types : TypeMap) (type : GraphQLType)
    (fields : list GraphQLField) : Prop :=
  exists name o,
    leafOf type name /\
    (types !! name = Some (ObjectType o)
     \/ types !! name = Some (InterfaceType o)) /\
    fields = obj_fields o.

(** [descends types root segments field]: the descent as the program
    carries it out, with [getField] for every lookup: following [segments]
    one by one from the field map of [root], through the stripped type of
    every field on the way, ends at [field]. *)
Inductive descends (types : TypeMap) (root : GraphQLObjectType)
  : list string -> GraphQLField -> Prop :=
| descends_root segment field :
    getField (obj_fields root) segment = Some field ->
    descends types root [segment] field
| descends_step segments field fields segment field' :
    descends types root segments field ->
    descendable types (field_type field) fields ->
    getField fields segment = Some field' ->
    descends types root (segments ++ [segment]) field'.

(** The segments of a dotted path. *)
Definition segments (path : string) : list string :=
  (splitPath path).1 :: (splitPath path).2.

(** The category order of the specification. *)
Definition categoryOrder : list TypeDefinitionKind :=
  [ ScalarTypeDefinition; EnumTypeDefinition; InterfaceTypeDefinition;
    InputObjectTypeDefinition; UnionTypeDefinition; ObjectTypeDefinition ].

Fixpoint allChars (p : ascii -> bool) (text : string) : bool :=
  match text with
  | EmptyString => true
  | String c rest => p c && allChars p rest
  end.

Fixpoint someChar (p : ascii -> bool) (text : string) : bool :=
  match text with
  | EmptyString => false
  | String c rest => p c || someChar p rest
  end.

(** A selection that is a plain field. *)
Definition isField (s : SelectionNode) : bool :=
  match s with
  | Field _ => true
  | _ => false
  end.

(** An exception of the navigator: the path error or the [TypeError] of a
    missing root. *)
Definition navigatorError (e : exn) : Prop :=
  e = TypeError \/ exists path, e = Error ("Unable to find path " +:+ path).

(** An import list fit for the import-statement formatter: no built-in
    scalar name, no name twice. *)
Definition cleanImports (l : list string) : Prop :=
  NoDup l /\ Forall (fun t => isGQLScalarType t = false) l.

(** The flat fields and the namespace fields of [e] both list exactly
    [names], and every flat field points into the namespace of [e]. *)
Definition consistentWith (names : list string) (e : Entity) : Prop :=
  pf_name <$> entity_fields e = names /\
  nf_name <$> namespace_fields e = names /\
  namespace_name e = entity_name e /\
  Forall (fun f => pf_type f = entity_name e +:+ "." +:+ pf_name f)
    (entity_fields e).

(** ** Formatting helpers *)

(** [parts.join(sep)] *)
Fixpoint join (sep : string) (parts : list string) : string :=
  match parts with
  | [] => EmptyString
  | p :: rest =>
      match rest with
      | [] => p
      | _ :: _ => p +:+ sep +:+ join sep rest
      end
  end.

(** [const [first, ...rest] = text.split(sep)] for a separator of one
    character. *)
Fixpoint splitOn (sep : ascii) (text : string) : string * list string :=
  match text with
  | EmptyString => (EmptyString, [])
  | String c text' =>
      let '(first, rest) := splitOn sep text' in
      if bool_decide (c = sep) then (EmptyString, first :: rest)
      else (String c first, rest)
  end.

(** [text.split(sep)] *)
Definition split (sep : ascii) (text : string) : list string :=
  (splitOn sep text).1 :: (splitOn sep text).2.

(** The line feed, and the string ['\n']. *)
Definition LF : ascii := "010"%char.
Definition newline : string := String LF EmptyString.

(** [getSpaces(count)]: [new Array(count).fill(' ').join('')]. *)
Definition getSpaces (count : nat) : string :=
  join EmptyString (replicate count " ").

(** [withSpaces(text, spacesCount)] *)
Definition withSpaces (text : string) (spacesCount : nat) : string :=
  let spaces := getSpaces spacesCount in
  join newline
    ((fun p => if (String.length p =? 0)%nat then p else spaces +:+ p)
       <$> split LF text).

(** [formatDescription(description, spacesCount)]: [!description] holds for
    [undefined] ([None]) and for the empty string. *)
Definition formatDescription (description : option string)
    (spacesCount : nat) : string :=
  match description with
  | None => EmptyString
  | Some EmptyString => EmptyString
  | Some d =>
      withSpaces ("/**" +:+ newline +:+ " * " +:+ d +:+ newline +:+ " */")
        spacesCount
      +:+ newline
  end.

(** [getOutputTypeDefinitionWithWrappers(type, definition, nullable)] *)
Fixpoint getOutputTypeDefinitionWithWrappers (type : GraphQLType)
    (definition : string) (nullable : bool) : string :=
  match type with
  | GraphQLNonNull ofType =>
      getOutputTypeDefinitionWithWrappers ofType definition false
  | GraphQLList _ =>
      let def := definition +:+ "[]" in
      if nullable then makeNullable def else def
  | GraphQLNamed _ =>
      let def := definition in
      if nullable then makeNullable def else def
  end.

(** [withCwd(path)] of [fs.ts]; [cwd] is the module constant
    [process.cwd()]. *)
Definition withCwd (cwd path : string) : string :=
  match path with
  | String "/" _ => cwd +:+ path
  | _ => cwd +:+ "/" +:+ path
  end.

(** ** Named types *)

(** [NamedGQLType]: the record of a parsed named type, tagged by its
    [__type]. An enum value is kept as [(name, description)]. *)
Inductive NamedGQLType : Type :=
| ScalarRecord (name : string) (description : option string)
| UnionRecord (name : string) (description : option string)
    (types : list string)
| EnumRecord (name : string) (description : option string)
    (values : list (string * option string))
| EntityRecord (entity : Entity).

Definition parseScalarType (name : string) (description : option string)
  : NamedGQLType :=
  ScalarRecord name description.

Definition parseUnionType (name : string) (description : option string)
    (types : list string) : NamedGQLType :=
  UnionRecord name description (transpileGQLTypeName <$> types).

Definition parseEnumType (name : string) (description : option string)
    (values : list (string * option string)) : NamedGQLType :=
  EnumRecord name description ((fun v => (v.1, v.2)) <$> values).

(** [parseNamedType(type)]: [null] is [None]. *)
Definition parseNamedType (type : GraphQLNamedType)
  : completion (option NamedGQLType) :=
  match astNode type with
  | None => Return None
  | Some _ =>
      match type with
      | ScalarType name description _ =>
          Return (Some (parseScalarType name description))
      | UnionType name description types _ =>
          Return (Some (parseUnionType name description types))
      | EnumType name description values _ =>
          Return (Some (parseEnumType name description values))
      | ObjectType t | InterfaceType t =>
          let* e := parseObjectOrInterfaceType t in
          Return (Some (EntityRecord e))
      | InputObjectType t =>
          let* e := parseInputObjectType t in
          Return (Some (EntityRecord e))
      end
  end.

(** ** Further vocabulary *)

(** The name under the wrappers of a syntax-tree type reference. *)
Fixpoint leafName (node : TypeNode) : string :=
  match node with
  | NamedType name => name
  | ListType type | NonNullType type => leafName type
  end.

(** A type reference with at most one list layer, whose elements are
    non-null. *)
Fixpoint flatShape (type : GraphQLType) : bool :=
  match type with
  | GraphQLNamed _ => true
  | GraphQLNonNull ofType => flatShape ofType
  | GraphQLList (GraphQLNonNull (GraphQLNamed _)) => true
  | GraphQLList _ => false
  end.

(** No character outside letters and digits is followed by another one. *)
Fixpoint noAdjacentSeparators (text : string) : bool :=
  match text with
  | EmptyString => true
  | String c rest =>
      (isAlnum c
       || match rest with
          | EmptyString => true
          | String d _ => isAlnum d
          end)
      && noAdjacentSeparators rest
  end.

(** The capitalised operation kind. *)
Definition kindSuffix (operation : OperationTypeNode) : string :=
  match operation with
  | query => "Query"
  | mutation => "Mutation"
  | subscription => "Subscription"
  end.

(** The names of the field selections of a selection set, in order. *)
Fixpoint fieldNames (selections : list SelectionNode) : list string :=
  match selections with
  | [] => []
  | Field (mkFieldNode name _) :: rest => name :: fieldNames rest
  | _ :: rest => fieldNames rest
  end.

(** The [name] of a namespace field. *)
Definition namespaceFieldName (f : OperationNamespaceField) : string :=
  match f with
  | LeafField name _ | CompositeField name _ _ => name
  end.

(** The custom type names an object or interface type refers to: the
    names under the wrappers of its field types and argument types that
    are no built-in scalar. *)
Definition refersTo (type : GraphQLObjectType) (x : string) : Prop :=
  isGQLScalarType x = false
  /\ exists f,
       f ∈ obj_fields type
       /\ (x = getFirstNonWrappingType (field_type f)
           \/ exists a,
                a ∈ field_args f
                /\ x = getFirstNonWrappingType (arg_type a)).

(** The text holds no occurrence of the character [sep]. *)
Definition sepFree (sep : ascii) (text : string) : bool :=
  allChars (fun c => negb (bool_decide (c = sep))) text.

(** [indent spaces p]: what [withSpaces] maps a line to. *)
Definition indent (spaces p : string) : string :=
  if (String.length p =? 0)%nat then p else spaces +:+ p.

(** The path without its leading slash, if it has one. *)
Definition dropSlash (path : string) : string :=
  match path with
  | String "/" rest => rest
  | _ => path
  end.

(** The [Arguments] record [parseObjectOrInterfaceType] prepares for a
    field. *)
Definition argumentsRecord (f : GraphQLField) : PreparedObject :=
  foldl prepareArgument (mkPreparedObject "Arguments" [] []) (field_args f).

(** [fieldNamed fields name field]: [field] is the entry of the field map
    [fields] under the key [name], a field of that name with no field of
    that name before it. *)
Definition fieldNamed (fields : list GraphQLField) (name : string)
    (field : GraphQLField) : Prop :=
  exists before after,
    fields = before ++ field :: after
    /\ field_name field = name
    /\ Forall (fun g => field_name g <> name) before.

(** [absent fields name]: the field map has no field of that name. *)
Definition absent (fields : list GraphQLField) (name : string) : Prop :=
  Forall (fun g => field_name g <> name) fields.

(** [reaches types root parts field]: following the names [parts] one by
    one, from the field map of [root] and then through the object or
    interface type under the wrappers of every field on the way, ends at
    the entry [field]. *)
Inductive reaches (types : TypeMap) (root : GraphQLObjectType)
  : list string -> GraphQLField -> Prop :=
| reaches_root name field :
    fieldNamed (obj_fields root) name field ->
    reaches types root [name] field
| reaches_step parts field fields name field' :
    reaches types root parts field ->
    descendable types (field_type field) fields ->
    fieldNamed fields name field' ->
    reaches types root (parts ++ [name]) field'.

(** [dottedParts path parts]: the dotted path [path] reads [a.b.c] for the
    names [parts = [a; b; c]], none of which holds a dot. *)
Definition dottedParts (path : string) (parts : list string) : Prop :=
  parts <> []
  /\ Forall (fun p => sepFree "." p = true) parts
  /\ join "." parts = path.

(** The form in which [getIn] returns the entry [field] reached along
    [parts]: its field config when the path has one part, the field itself
    otherwise. *)
Definition returnedAs (parts : list string) (field : GraphQLField)
  : FieldOrConfig :=
  match parts with
  | [_] => IsConfig (toFieldConfig field)
  | _ => IsField field
  end.

(** * Properties *)

(** ** Arrays used as ordered sets *)

Lemma includes_true arr x : includes arr x = true <-> x ∈ arr.
Proof. unfold includes. apply bool_decide_eq_true. Qed.

Lemma includes_false arr x : includes arr x = false <-> x ∉ arr.
Proof. unfold includes. apply bool_decide_eq_false. Qed.

Lemma pushCustom_present acc t : t ∈ acc -> pushCustom acc t = acc.
Proof.
  intros Hin. unfold pushCustom.
  apply includes_true in Hin. rewrite Hin.
  by rewrite andb_false_r.
Qed.

Lemma foldl_pushCustom_present l acc :
  l ⊆ acc -> foldl pushCustom acc l = acc.
Proof.
  induction l as [|t l IH]; intros Hsub; simpl; [done|].
  rewrite pushCustom_present; [|set_solver].
  apply IH. set_solver.
Qed.

(** The [forEach] of the list case pushes nothing: the array it walks is
    the array it pushes into. *)
Lemma foldl_pushCustom_self l : foldl pushCustom l l = l.
Proof. by apply foldl_pushCustom_present. Qed.

Lemma pushCustom_clean acc t :
  cleanImports acc -> cleanImports (pushCustom acc t).
Proof.
  intros [Hnd Hsc]. unfold pushCustom.
  destruct (isGQLScalarType t) eqn:Ht; simpl; [done|].
  destruct (includes acc t) eqn:Hin; simpl; [done|].
  apply includes_false in Hin. split.
  - apply NoDup_app. split_and!; [done| |apply NoDup_singleton].
    intros x Hx Hx'. apply list_elem_of_singleton in Hx'. by subst.
  - apply Forall_app. split; [done|]. by apply Forall_singleton.
Qed.

Lemma pushCustom_prefix acc t : acc `prefix_of` pushCustom acc t.
Proof.
  unfold pushCustom.
  destruct (negb _ && negb _); [by apply prefix_app_r|done].
Qed.

(** ** Type Reference Resolver *)

Lemma getIOTypeDefinition_imports type : forall acc nullable,
  cleanImports acc ->
  cleanImports (importTypes (getIOTypeDefinition type acc nullable))
  /\ acc `prefix_of` importTypes (getIOTypeDefinition type acc nullable).
Proof.
  induction type as [name|ofType IH|ofType IH]; intros acc nullable Hacc;
    simpl.
  - split; [by apply pushCustom_clean|apply pushCustom_prefix].
  - specialize (IH acc true Hacc).
    destruct (getIOTypeDefinition ofType acc true) as [d imps].
    simpl in *. by rewrite foldl_pushCustom_self.
  - by apply IH.
Qed.

Lemma getTypeNodeDefinition_imports node : forall acc nullable,
  cleanImports acc ->
  cleanImports (importTypes (getTypeNodeDefinition node acc nullable))
  /\ acc `prefix_of` importTypes (getTypeNodeDefinition node acc nullable).
Proof.
  induction node as [name|type IH|type IH]; intros acc nullable Hacc; simpl.
  - split; [by apply pushCustom_clean|apply pushCustom_prefix].
  - specialize (IH acc true Hacc).
    destruct (getTypeNodeDefinition type acc true) as [d imps].
    simpl in *. by rewrite foldl_pushCustom_self.
  - by apply IH.
Qed.

Lemma cleanImports_nil : cleanImports [].
Proof. split; [apply NoDup_nil_2|apply Forall_nil_2]. Qed.

(** The two resolvers run the same computation on a syntax-tree reference
    and on the type object it denotes, whatever the accumulator and the
    nullable flag they start from. *)
Lemma resolvers_agree_from node type :
  denotes node type ->
  forall acc nullable,
    getTypeNodeDefinition node acc nullable
    = getIOTypeDefinition type acc nullable.
Proof.
  induction 1 as [name|node type _ IH|node type _ IH]; intros acc nullable;
    simpl.
  - reflexivity.
  - by rewrite IH.
  - apply IH.
Qed.

(** C1. The nullable suffix goes after the list brackets, on the whole
    expression, but the element rendering is not parenthesised: the
    reference [[String]] renders as ["string | null[] | null"], which is not
    the string ["(string | null)[] | null"] of the specification.  For every
    name [X], [NonNull(List(NonNull(Named X)))] renders as the bare array
    [X'[]] of the translated name [X'], and [List(Named X)] renders as
    [X' | null[] | null]. *)
Theorem nullable_list_rendering :
  definition (getTypeNodeDefinition (ListType (NamedType "String")) [] true)
    = "string | null[] | null"
  /\ definition (getTypeNodeDefinition (ListType (NamedType "String")) [] true)
    <> "(string | null)[] | null"
  /\ definition
       (getIOTypeDefinition (GraphQLList (GraphQLNamed "String")) [] true)
    = "string | null[] | null"
  /\ (forall X acc,
        definition
          (getTypeNodeDefinition
             (NonNullType (ListType (NonNullType (NamedType X)))) acc true)
        = transpileGQLTypeName X +:+ "[]")
  /\ (forall X acc,
        definition (getTypeNodeDefinition (ListType (NamedType X)) acc true)
        = makeNullable (makeNullable (transpileGQLTypeName X) +:+ "[]")).
Proof.
  split_and!; [reflexivity|discriminate|reflexivity|reflexivity|reflexivity].
Qed.

(** C2. For every syntax-tree type reference and the schema type object it
    denotes, [getTypeNodeDefinition] and [getIOTypeDefinition], each started
    on a fresh import array, return the same definition string and the same
    import list, element for element. *)
Theorem resolvers_agree node type :
  denotes node type ->
  definition (getTypeNodeDefinition node [] true)
    = definition (getIOTypeDefinition type [] true)
  /\ importTypes (getTypeNodeDefinition node [] true)
    = importTypes (getIOTypeDefinition type [] true).
Proof.
  intros Hden. by rewrite (resolvers_agree_from node type Hden).
Qed.

Lemma resolvers_agree_witness :
  denotes (NonNullType (ListType (NamedType "PostedPost")))
    (GraphQLNonNull (GraphQLList (GraphQLNamed "PostedPost")))
  /\ definition
       (getTypeNodeDefinition
          (NonNullType (ListType (NamedType "PostedPost"))) [] true)
     = definition
         (getIOTypeDefinition
            (GraphQLNonNull (GraphQLList (GraphQLNamed "PostedPost")))
            [] true)
  /\ importTypes
       (getTypeNodeDefinition
          (NonNullType (ListType (NamedType "PostedPost"))) [] true)
     = importTypes
         (getIOTypeDefinition
            (GraphQLNonNull (GraphQLList (GraphQLNamed "PostedPost")))
            [] true).
Proof.
  split.
  - repeat constructor.
  - apply resolvers_agree. repeat constructor.
Defined.

(** ** Dependency aggregation *)

Lemma pushIfAbsent_NoDup arr x : NoDup arr -> NoDup (pushIfAbsent arr x).
Proof.
  intros Hnd. unfold pushIfAbsent.
  destruct (includes arr x) eqn:Hin; [done|].
  apply includes_false in Hin.
  apply NoDup_app. split_and!; [done| |apply NoDup_singleton].
  intros y Hy Hy'. apply list_elem_of_singleton in Hy'. by subst.
Qed.

Lemma pushIfAbsent_elem_of arr x y :
  y ∈ pushIfAbsent arr x <-> y ∈ arr \/ y = x.
Proof.
  unfold pushIfAbsent. destruct (includes arr x) eqn:Hin.
  - apply includes_true in Hin. split; [by left|]. intros [?| ->]; done.
  - rewrite elem_of_app, list_elem_of_singleton. done.
Qed.

Lemma addAll_NoDup src : forall dst, NoDup dst -> NoDup (addAll dst src).
Proof.
  unfold addAll. induction src as [|x src IH]; intros dst Hnd; simpl;
    [done|].
  apply IH. by apply pushIfAbsent_NoDup.
Qed.

Lemma addAll_elem_of src : forall dst y,
  y ∈ addAll dst src <-> y ∈ dst \/ y ∈ src.
Proof.
  unfold addAll. induction src as [|x src IH]; intros dst y; simpl.
  - rewrite elem_of_nil. tauto.
  - rewrite IH, pushIfAbsent_elem_of, elem_of_cons. tauto.
Qed.

Lemma addAll_prefix src : forall dst, dst `prefix_of` addAll dst src.
Proof.
  unfold addAll. induction src as [|x src IH]; intros dst; simpl; [done|].
  etrans; [|apply IH]. unfold pushIfAbsent.
  destruct (includes dst x); [done|by apply prefix_app_r].
Qed.

Lemma addAll_clean dst src :
  cleanImports dst ->
  Forall (fun t => isGQLScalarType t = false) src ->
  cleanImports (addAll dst src).
Proof.
  intros [Hnd Hsc] Hsrc. split; [by apply addAll_NoDup|].
  rewrite Forall_forall in *. intros y Hy.
  apply addAll_elem_of in Hy as [Hy|Hy]; auto.
Qed.

(** The import list of a single namespace field has no duplicate. *)
Lemma getImportTypes_NoDup field : NoDup (getImportTypes field).
Proof.
  destruct field; simpl; apply addAll_NoDup, NoDup_nil_2.
Qed.

Lemma prepareArgument_clean argAcc arg :
  cleanImports (po_importTypes argAcc) ->
  cleanImports (po_importTypes (prepareArgument argAcc arg)).
Proof.
  intros Hacc. unfold prepareArgument.
  destruct (getIOTypeDefinition_imports (arg_type arg) [] true
              cleanImports_nil) as [[_ Hsc] _].
  destruct (getIOTypeDefinition (arg_type arg) [] true) as [d imps].
  simpl in *. by apply addAll_clean.
Qed.

Lemma preparedArguments_clean args : forall argAcc,
  cleanImports (po_importTypes argAcc) ->
  cleanImports (po_importTypes (foldl prepareArgument argAcc args)).
Proof.
  induction args as [|arg args IH]; intros argAcc Hacc; simpl; [done|].
  by apply IH, prepareArgument_clean.
Qed.

Lemma addObjectField_clean formattedName acc f :
  cleanImports (entity_importTypes acc) ->
  cleanImports (entity_importTypes (addObjectField formattedName acc f)).
Proof.
  intros Hacc. unfold addObjectField.
  destruct (getIOTypeDefinition_imports (field_type f) [] true
              cleanImports_nil) as [[_ Hsc] _].
  destruct (getIOTypeDefinition (field_type f) [] true) as [d imps].
  simpl in *. apply addAll_clean; [done|].
  apply Forall_app. split; [done|].
  apply (preparedArguments_clean (field_args f)
           (mkPreparedObject "Arguments" [] [])), cleanImports_nil.
Qed.

(** The import list of an extracted object or interface entity names no
    built-in scalar and no type twice. *)
Lemma parseObjectOrInterfaceType_clean type e :
  parseObjectOrInterfaceType type = Return e ->
  cleanImports (entity_importTypes e).
Proof.
  unfold parseObjectOrInterfaceType.
  destruct (toCamelCase (obj_name type)) as [formattedName|]; simpl;
    [|done].
  intros [= <-].
  pose proof cleanImports_nil as Hinit. revert Hinit.
  change [] with
    (entity_importTypes
       (mkEntity formattedName [] formattedName (obj_description type)
          [] [])) at 1.
  generalize (mkEntity formattedName [] formattedName
                (obj_description type) [] []).
  induction (obj_fields type) as [|f fields IH]; intros acc Hacc; simpl;
    [done|].
  by apply IH, addObjectField_clean.
Qed.

(** The import list of an assembled operation has no duplicate. *)
Lemma parseOperationDefinitionNode_NoDup node schema text o :
  parseOperationDefinitionNode node schema text = Return o ->
  NoDup (operation_importTypes o).
Proof.
  unfold parseOperationDefinitionNode.
  destruct (op_name node) as [name|]; simpl; [|done].
  destruct (getCompiledOperationName _ _); simpl; [|done].
  destruct (getCompiledOperationNamespaceName _ _); simpl; [|done].
  destruct (selectionSetToRootNamespace _ _ _ _ _); simpl; [|done].
  intros [= <-]. simpl.
  apply addAll_NoDup, addAll_NoDup, NoDup_nil_2.
Qed.

(** C3. The import list of the root namespace built by
    [selectionSetToRootNamespace] is the plain concatenation of the lists
    of its fields: for the query [{ post { createdAt } posts { createdAt } }]
    on the example schema it is [DateTime, DateTime], which names
    [DateTime] twice. *)
Theorem root_namespace_imports_duplicate :
  exists ns,
    selectionSetToRootNamespace Example.types Example.twoPosts "PostsQuery"
      (parseOperationVariableDefinitions []) (Some Example.Query)
    = Return ns
    /\ ns_importTypes ns = ["DateTime"; "DateTime"]
    /\ ~ NoDup (ns_importTypes ns).
Proof.
  eexists. split; [vm_compute; reflexivity|]. simpl.
  split; [reflexivity|].
  intros Hnd. apply NoDup_cons in Hnd as [Hnotin _].
  apply Hnotin. by apply list_elem_of_singleton.
Qed.

(** ** Field-Path Navigator *)

Lemma leafOf_getFirstNonWrappingType type name :
  leafOf type name <-> getFirstNonWrappingType type = name.
Proof.
  split.
  - induction 1; simpl; congruence.
  - intros <-. induction type; simpl; by constructor.
Qed.

Lemma descendable_lookup types type fields :
  descendable types type fields <->
  exists o,
    (types !! getFirstNonWrappingType type = Some (ObjectType o)
     \/ types !! getFirstNonWrappingType type = Some (InterfaceType o))
    /\ fields = obj_fields o.
Proof.
  split.
  - intros (name & o & Hleaf & Hty & ->).
    apply leafOf_getFirstNonWrappingType in Hleaf as <-. eauto.
  - intros (o & Hty & ->). exists (getFirstNonWrappingType type), o.
    split_and!; [by apply leafOf_getFirstNonWrappingType|done|done].
Qed.

Lemma descendable_det types type fields fields' :
  descendable types type fields -> descendable types type fields' ->
  fields = fields'.
Proof.
  rewrite !descendable_lookup.
  intros (o & Ho & ->) (o' & Ho' & ->).
  destruct Ho as [Ho|Ho], Ho' as [Ho'|Ho']; congruence.
Qed.

(** One turn of the loop, read through [descendable]. *)
Lemma findFieldLoop_cons types path field partial rest :
  findFieldLoop types path field (partial :: rest)
  = match types !! getFirstNonWrappingType (field_type field) with
    | Some (ObjectType type) | Some (InterfaceType type) =>
        match getField (obj_fields type) partial with
        | None => Throw (Error ("Unable to find path " +:+ path))
        | Some field' => findFieldLoop types path field' rest
        end
    | _ => Throw (Error ("Unable to find path " +:+ path))
    end.
Proof. reflexivity. Qed.

Lemma findFieldLoop_step types path field partial rest fields field' :
  descendable types (field_type field) fields ->
  getField fields partial = Some field' ->
  findFieldLoop types path field (partial :: rest)
  = findFieldLoop types path field' rest.
Proof.
  rewrite descendable_lookup. intros (o & Ho & ->) Hget.
  rewrite findFieldLoop_cons. destruct Ho as [-> | ->]; by rewrite Hget.
Qed.

Lemma findFieldLoop_step_inv types path field partial rest r :
  findFieldLoop types path field (partial :: rest) = Return r ->
  exists fields field',
    descendable types (field_type field) fields
    /\ getField fields partial = Some field'
    /\ findFieldLoop types path field' rest = Return r.
Proof.
  rewrite findFieldLoop_cons. intros Hloop.
  destruct (types !! getFirstNonWrappingType (field_type field))
    as [[| | |o|o|]|] eqn:Hty; try discriminate;
    (destruct (getField (obj_fields o) partial) as [field'|] eqn:Hget;
     [|discriminate]);
    exists (obj_fields o), field'; split_and!; try done;
    apply descendable_lookup; eauto.
Qed.

Lemma findFieldLoop_app types path rest : forall field rest' g,
  findFieldLoop types path field rest = Return g ->
  findFieldLoop types path field (rest ++ rest')
  = findFieldLoop types path g rest'.
Proof.
  induction rest as [|partial rest IH]; intros field rest' g Hloop.
  - simpl in Hloop. by injection Hloop as ->.
  - apply findFieldLoop_step_inv in Hloop
      as (fields & field' & Hdesc & Hget & Hloop).
    rewrite <- app_comm_cons.
    rewrite (findFieldLoop_step _ _ _ _ _ _ _ Hdesc Hget). by apply IH.
Qed.

(** The loop either returns a field or raises the path error. *)
Lemma findFieldLoop_cases types path rest : forall field,
  returns (findFieldLoop types path field rest)
  \/ findFieldLoop types path field rest
     = Throw (Error ("Unable to find path " +:+ path)).
Proof.
  induction rest as [|partial rest IH]; intros field.
  - left. by eexists.
  - rewrite findFieldLoop_cons.
    destruct (types !! getFirstNonWrappingType (field_type field))
      as [[| | |o|o|]|]; auto;
      destruct (getField (obj_fields o) partial); auto.
Qed.

Lemma descends_nonempty types root segs field :
  descends types root segs field -> segs <> [].
Proof. destruct 1 as [|segs' ? ? ? ? _ _ _]; [done|]. by destruct segs'. Qed.

Lemma descends_snoc_inv types root segs segment field' :
  descends types root (segs ++ [segment]) field' ->
  (segs = [] /\ getField (obj_fields root) segment = Some field')
  \/ exists field fields,
       descends types root segs field
       /\ descendable types (field_type field) fields
       /\ getField fields segment = Some field'.
Proof.
  inversion 1 as [s f Hget Heq|segs' f fields s f' Hd Hdesc Hget Heq]; subst.
  - left. destruct segs as [|x [|y segs]]; simplify_eq/=. done.
  - apply app_inj_tail in Heq as [-> ->]. right. eauto.
Qed.

Lemma descends_det types root segs : forall field field',
  descends types root segs field -> descends types root segs field' ->
  field = field'.
Proof.
  induction segs as [|segment segs IH] using rev_ind;
    intros field field' H1 H2.
  - by apply descends_nonempty in H1.
  - apply descends_snoc_inv in H1
      as [[-> Hg1]|(g1 & fs1 & Hd1 & Hdesc1 & Hg1)];
    apply descends_snoc_inv in H2
      as [[Hnil Hg2]|(g2 & fs2 & Hd2 & Hdesc2 & Hg2)].
    + congruence.
    + by apply descends_nonempty in Hd2.
    + subst. by apply descends_nonempty in Hd1.
    + rewrite (IH _ _ Hd1 Hd2) in Hdesc1.
      rewrite (descendable_det _ _ _ _ Hdesc1 Hdesc2) in Hg1. congruence.
Qed.

Lemma prefix_snoc_inv {A} (p l : list A) x :
  p `prefix_of` l ++ [x] -> p = l ++ [x] \/ p `prefix_of` l.
Proof.
  intros [k Hk]. destruct k as [|y k _] using rev_ind.
  - left. by rewrite app_nil_r in Hk.
  - right. rewrite app_assoc in Hk.
    apply app_inj_tail in Hk as [-> _]. by apply prefix_app_r.
Qed.

(** Literal descent along a path finds every prefix of it. *)
Lemma descends_prefix types root segs field :
  descends types root segs field ->
  forall p, p <> [] -> p `prefix_of` segs ->
  exists g, descends types root p g.
Proof.
  induction 1 as [s f Hget|segs f fields s f' Hd IH Hdesc Hget];
    intros p Hne Hp.
  - apply (prefix_snoc_inv p [] s) in Hp as [->|Hp].
    + eexists. by constructor.
    + by apply prefix_nil_inv in Hp.
  - apply prefix_snoc_inv in Hp as [->|Hp]; [|by apply IH].
    eexists. by econstructor.
Qed.

Lemma findFieldLoop_sound types root path rest : forall segs field r,
  descends types root segs field ->
  findFieldLoop types path field rest = Return r ->
  descends types root (segs ++ rest) r.
Proof.
  induction rest as [|partial rest IH]; intros segs field r Hd Hloop.
  - simpl in Hloop. injection Hloop as <-. by rewrite app_nil_r.
  - apply findFieldLoop_step_inv in Hloop
      as (fields & field' & Hdesc & Hget & Hloop).
    rewrite cons_middle, app_assoc. eapply IH; [|done].
    by econstructor.
Qed.

Lemma findFieldLoop_complete types root path rest : forall segs field r,
  descends types root segs field ->
  descends types root (segs ++ rest) r ->
  findFieldLoop types path field rest = Return r.
Proof.
  induction rest as [|partial rest IH] using rev_ind;
    intros segs field r Hd Hr.
  - rewrite app_nil_r in Hr. simpl. f_equal.
    by eapply descends_det.
  - rewrite app_assoc in Hr.
    apply descends_snoc_inv in Hr
      as [[Hnil _]|(g & fields & Hg & Hdesc & Hget)].
    + apply descends_nonempty in Hd. by destruct segs.
    + rewrite (findFieldLoop_app _ _ _ _ _ _ (IH _ _ _ Hd Hg)).
      by rewrite (findFieldLoop_step _ _ _ _ _ _ _ Hdesc Hget).
Qed.

Lemma findField_returns types root path field :
  findField types (Some root) path = Return field
  <-> descends types root (segments path) field.
Proof.
  unfold findField, segments.
  destruct (splitPath path) as [firstPartial restPartials]. simpl. split.
  - destruct (getField (obj_fields root) firstPartial) as [f0|] eqn:Hget;
      [|done].
    intros Hloop.
    apply (findFieldLoop_sound types root path restPartials [firstPartial] f0);
      [by constructor|done].
  - intros Hd.
    destruct (descends_prefix _ _ _ _ Hd [firstPartial]) as [f0 Hf0];
      [done|apply prefix_cons, prefix_nil|].
    pose proof Hf0 as Hroot.
    apply (descends_snoc_inv _ _ []) in Hroot
      as [[_ Hget]|(g & ? & Hg & _)];
      [|by apply descends_nonempty in Hg].
    rewrite Hget.
    by apply (findFieldLoop_complete types root path restPartials
                [firstPartial] f0).
Qed.

Lemma findField_cases types root path :
  returns (findField types (Some root) path)
  \/ findField types (Some root) path
     = Throw (Error ("Unable to find path " +:+ path)).
Proof.
  unfold findField. destruct (splitPath path) as [firstPartial restPartials].
  destruct (getField (obj_fields root) firstPartial); [|by right].
  apply findFieldLoop_cases.
Qed.

(** *** From the entries of the field maps to what [getIn] returns *)

Lemma getFieldConfig_toConfigFields fields key :
  getFieldConfig ((fun f => (field_name f, toFieldConfig f)) <$> fields) key
  = toFieldConfig <$> getField fields key.
Proof.
  induction fields as [|f fields IH]; simpl; [done|].
  by destruct (bool_decide (field_name f = key)).
Qed.

Lemma getInLoop_findFieldLoop types path rest : forall x f,
  rest <> [] -> typeOf x = field_type f ->
  getInLoop types path x rest
  = let* g := findFieldLoop types path f rest in Return (IsField g).
Proof.
  induction rest as [|partial rest IH]; intros x f Hne Htype; [done|].
  simpl. rewrite Htype.
  destruct (types !! getFirstNonWrappingType (field_type f))
    as [[| | |o|o|]|]; try done;
    (destruct (getField (obj_fields o) partial) as [field'|]; [|done]);
    (destruct rest as [|partial' rest]; [done|by apply IH]).
Qed.

(** [getIn] returns the entry [findField] arrives at, as a field config
    for a path of one partial and as the field for a longer one. *)
Lemma getIn_findField types rootNode path :
  getIn types rootNode path
  = let* f := findField types rootNode path in
    Return (returnedAs (segments path) f).
Proof.
  unfold getIn, findField, segments.
  destruct (splitPath path) as [firstPartial restPartials]. simpl.
  destruct rootNode as [root|]; [|done].
  unfold toConfigFields. rewrite getFieldConfig_toConfigFields.
  destruct (getField (obj_fields root) firstPartial) as [f|]; simpl; [|done].
  destruct restPartials as [|partial rest]; [done|].
  rewrite (getInLoop_findFieldLoop _ _ _ _ f); [|done|done].
  by destruct (findFieldLoop types path f (partial :: rest)).
Qed.

Lemma typeOf_returnedAs parts field :
  typeOf (returnedAs parts field) = field_type field.
Proof. by destruct parts as [|? [|? ?]]. Qed.

Lemma getIn_returns types root path r :
  getIn types (Some root) path = Return r
  <-> exists field,
        descends types root (segments path) field
        /\ r = returnedAs (segments path) field.
Proof.
  rewrite getIn_findField. split.
  - destruct (findField types (Some root) path) as [f|] eqn:Hf; simpl;
      [|done].
    intros [= <-]. exists f. split; [by apply findField_returns|done].
  - intros (field & Hd & ->). apply findField_returns in Hd.
    by rewrite Hd.
Qed.

Lemma getIn_cases types root path :
  returns (getIn types (Some root) path)
  \/ getIn types (Some root) path
     = Throw (Error ("Unable to find path " +:+ path)).
Proof.
  rewrite getIn_findField.
  destruct (findField_cases types root path) as [[f ->]| ->];
    [left; by eexists|by right].
Qed.

(** ** Selection Projector *)

Lemma foldl_addObjectFieldOf_filter prefix selections : forall acc,
  foldl (addObjectFieldOf prefix) acc selections
  = foldl (addObjectFieldOf prefix) acc
      (base.filter (fun s => isField s = true) selections).
Proof.
  induction selections as [|s selections IH]; intros acc; [done|].
  destruct s as [[name sel]| |].
  - rewrite filter_cons_True by done. simpl. apply IH.
  - rewrite filter_cons_False by done. apply IH.
  - rewrite filter_cons_False by done. apply IH.
Qed.

Lemma reduceNamespaceFields_filter convert selections : forall acc,
  reduceNamespaceFields convert selections acc
  = reduceNamespaceFields convert
      (base.filter (fun s => isField s = true) selections) acc.
Proof.
  induction selections as [|s selections IH]; intros acc; [done|].
  destruct s as [f| |].
  - rewrite filter_cons_True by done. simpl.
    destruct (convert f); simpl; [apply IH|done].
  - rewrite filter_cons_False by done. apply IH.
  - rewrite filter_cons_False by done. apply IH.
Qed.

(** The body of [fieldNodeToNamespaceField], with the children written as
    the call of [selectionSetToNamespaceFields]. *)
Lemma fieldNodeToNamespaceField_unfold types nodeName selectionSet
    rootNode prevPath :
  fieldNodeToNamespaceField types (mkFieldNode nodeName selectionSet)
    rootNode prevPath
  = let path := if (0 <? String.length prevPath)%nat
                then prevPath +:+ "." +:+ nodeName
                else nodeName in
    let* field := getIn types rootNode path in
    match selectionSet with
    | Some selections =>
        let* fields :=
          selectionSetToNamespaceFields types selections rootNode path in
        Return
          (CompositeField nodeName
             (mkSelectionType nodeName
                (foldl (addObjectFieldOf nodeName) [] selections)
                (typeOf field))
             fields)
    | None =>
        Return
          (LeafField nodeName
             (getIOTypeDefinition (typeOf field) [] true))
    end.
Proof. reflexivity. Qed.

Lemma getIn_error types rootNode path e :
  getIn types rootNode path = Throw e -> navigatorError e.
Proof.
  destruct rootNode as [root|].
  - destruct (getIn_cases types root path) as [[f ->]| ->]; [done|].
    intros [= <-]. right. eauto.
  - unfold getIn. destruct (splitPath path). intros [= <-]. by left.
Qed.

(** Induction on a field node, with the property at hand for every field
    selection of its nested selection set. *)
Lemma FieldNode_nested_ind (P : FieldNode -> Prop) :
  (forall name, P (mkFieldNode name None)) ->
  (forall name selections,
     Forall (fun s => match s with Field f => P f | _ => True end)
       selections ->
     P (mkFieldNode name (Some selections))) ->
  forall node, P node.
Proof.
  intros Hleaf Hnode. fix IH 1. intros [name [selections|]]; [|apply Hleaf].
  apply Hnode. induction selections as [|s selections IHs];
    constructor; [|exact IHs].
  destruct s as [f| |]; [apply IH|exact I|exact I].
Qed.

Lemma reduceNamespaceFields_error convert selections :
  Forall (fun s => forall f, s = Field f ->
            forall e, convert f = Throw e -> navigatorError e) selections ->
  forall acc e,
    reduceNamespaceFields convert selections acc = Throw e ->
    navigatorError e.
Proof.
  induction 1 as [|s selections Hs _ IH]; intros acc e; [done|].
  destruct s as [f| |]; simpl; [|apply IH|apply IH].
  destruct (convert f) as [r|e'] eqn:Hf; simpl; [apply IH|].
  intros [= <-]. by eapply Hs.
Qed.

Lemma fieldNodeToNamespaceField_error types rootNode node :
  forall prevPath e,
    fieldNodeToNamespaceField types node rootNode prevPath = Throw e ->
    navigatorError e.
Proof.
  induction node as [name|name selections IH] using FieldNode_nested_ind;
    intros prevPath e; rewrite fieldNodeToNamespaceField_unfold; simpl;
    destruct (getIn types rootNode _) as [field|e'] eqn:Hget; simpl;
    try (intros [= <-]; by eapply getIn_error); try done.
  unfold selectionSetToNamespaceFields.
  destruct (reduceNamespaceFields _ _ _) as [fields|e'] eqn:Hred;
    simpl; [done|].
  intros [= <-]. eapply reduceNamespaceFields_error; [|done].
  eapply Forall_impl; [exact IH|]. simpl. intros s Hs f -> e2.
  apply Hs.
Qed.

(** C5 (as the code has it). A selection that is not a plain field is
    skipped, without any error: the flat fields and the namespace fields
    of a selection set are those of its field selections alone, in their
    order, and the only exceptions the namespace projection raises are
    those of the navigator. *)
Theorem projection_skips_non_fields types selections rootNode path nspName :
  selectionSetToObjectFields selections nspName
    = selectionSetToObjectFields
        (base.filter (fun s => isField s = true) selections) nspName
  /\ selectionSetToNamespaceFields types selections rootNode path
    = selectionSetToNamespaceFields types
        (base.filter (fun s => isField s = true) selections) rootNode path
  /\ (forall e,
        selectionSetToNamespaceFields types selections rootNode path
          = Throw e ->
        navigatorError e).
Proof.
  split_and!.
  - apply foldl_addObjectFieldOf_filter.
  - apply reduceNamespaceFields_filter.
  - intros e. apply reduceNamespaceFields_error.
    apply Forall_forall. intros s _ f _ e'.
    apply fieldNodeToNamespaceField_error.
Qed.

(** C5, counterexample. The selection set [{ ...PostParts }] projects to
    empty lists; nothing is raised. *)
Lemma fragment_spread_dropped :
  ~ throws
      (selectionSetToNamespaceFields Example.types
         [FragmentSpread "PostParts"] (Some Example.Query) "")
  /\ selectionSetToNamespaceFields Example.types
       [FragmentSpread "PostParts"] (Some Example.Query) ""
     = Return []
  /\ selectionSetToObjectFields [FragmentSpread "PostParts"] "PostQuery"
     = [].
Proof.
  split_and!; [|reflexivity|reflexivity].
  intros [e He]. discriminate He.
Qed.

(** ** Operation Assembler *)

Lemma toCamelCase_error text e : toCamelCase text = Throw e -> e = TypeError.
Proof. unfold toCamelCase. destruct (clear text); congruence. Qed.

Lemma toCamelCase_operationText operation :
  returns (toCamelCase (operationText operation)).
Proof. destruct operation; by eexists. Qed.

Lemma fieldNodeToNamespaceField_missing_root types node prevPath :
  fieldNodeToNamespaceField types node None prevPath = Throw TypeError.
Proof.
  destruct node as [nodeName selectionSet].
  rewrite fieldNodeToNamespaceField_unfold. simpl.
  unfold getIn. by destruct (splitPath _).
Qed.

Lemma reduceNamespaceFields_missing_root types path selections :
  (exists f, Field f ∈ selections) ->
  forall acc,
    reduceNamespaceFields
      (fun s => fieldNodeToNamespaceField types s None path) selections acc
    = Throw TypeError.
Proof.
  intros [f Hf]. induction selections as [|s selections IH]; intros acc.
  - by apply elem_of_nil in Hf.
  - destruct s as [g| |]; simpl.
    + by rewrite fieldNodeToNamespaceField_missing_root.
    + apply IH. by apply elem_of_cons in Hf as [?|?].
    + apply IH. by apply elem_of_cons in Hf as [?|?].
Qed.

Lemma reduceNamespaceFields_no_field convert selections :
  Forall (fun s => isField s = false) selections ->
  forall acc, reduceNamespaceFields convert selections acc = Return acc.
Proof.
  induction 1 as [|s selections Hs _ IH]; intros acc; [done|].
  destruct s; [done|apply IH|apply IH].
Qed.

(** C6 (as the code has it). [getOperationRootNode] maps each operation
    kind to the root the schema configures for it, and gives nothing,
    without raising, when the schema configures none.  For an operation
    whose kind has no root: if its selection set holds a field selection,
    assembling raises a [TypeError] (there is no dedicated error); if it
    holds none and the operation name can be camel-cased, assembling
    returns an operation, whose namespace has no field. *)
Theorem missing_root_assembly schema node text :
  getOperationRootNode schema (op_operation node) = None ->
  (getOperationRootNode schema query = queryType schema
   /\ getOperationRootNode schema mutation = mutationType schema
   /\ getOperationRootNode schema subscription = subscriptionType schema)
  /\ ((exists f, Field f ∈ op_selectionSet node) ->
      parseOperationDefinitionNode node schema text = Throw TypeError)
  /\ (Forall (fun s => isField s = false) (op_selectionSet node) ->
      forall name,
        op_name node = Some name -> returns (toCamelCase name) ->
        exists o,
          parseOperationDefinitionNode node schema text = Return o
          /\ ns_fields (operation_namespace o) = []).
Proof.
  intros Hroot. split_and!; try reflexivity.
  - intros Hfield. unfold parseOperationDefinitionNode.
    destruct (op_name node) as [name|]; simpl; [|done].
    unfold getCompiledOperationName, getCompiledOperationNamespaceName.
    destruct (toCamelCase_operationText (op_operation node)) as [op ->].
    simpl.
    destruct (toCamelCase name) as [n|e] eqn:Hname; simpl;
      [|by rewrite (toCamelCase_error _ _ Hname)].
    rewrite Hroot.
    unfold selectionSetToRootNamespace, selectionSetToNamespaceFields.
    by rewrite reduceNamespaceFields_missing_root.
  - intros Hnone name Hname [n Hn]. unfold parseOperationDefinitionNode.
    rewrite Hname. simpl.
    unfold getCompiledOperationName, getCompiledOperationNamespaceName.
    destruct (toCamelCase_operationText (op_operation node)) as [op ->].
    rewrite Hn. simpl.
    unfold selectionSetToRootNamespace, selectionSetToNamespaceFields.
    rewrite reduceNamespaceFields_no_field by done. simpl. by eexists.
Qed.

(** [mutation DeletePost { deletePost }] against the example schema, which
    has no mutation root. *)
Lemma missing_root_assembly_witness :
  getOperationRootNode Example.queryOnly mutation = None
  /\ parseOperationDefinitionNode
       (mkOperationDefinition (Some "DeletePost") mutation []
          [Example.leaf "deletePost"] (0, 34)%nat)
       Example.queryOnly "mutation DeletePost { deletePost }"
     = Throw TypeError.
Proof.
  split; [reflexivity|].
  apply (missing_root_assembly Example.queryOnly
           (mkOperationDefinition (Some "DeletePost") mutation []
              [Example.leaf "deletePost"] (0, 34)%nat)
           "mutation DeletePost { deletePost }" eq_refl).
  exists (mkFieldNode "deletePost" None). apply list_elem_of_here.
Defined.

(** C6, counterexample. [mutation Refresh { ...Refreshed }] against the
    example schema, which has no mutation root: assembling returns. *)
Lemma missing_mutation_root_returns :
  getOperationRootNode Example.queryOnly mutation = None
  /\ returns
       (parseOperationDefinitionNode
          (mkOperationDefinition (Some "Refresh") mutation []
             [FragmentSpread "Refreshed"] (0, 33)%nat)
          Example.queryOnly "mutation Refresh { ...Refreshed }")
  /\ ~ throws
        (parseOperationDefinitionNode
           (mkOperationDefinition (Some "Refresh") mutation []
              [FragmentSpread "Refreshed"] (0, 33)%nat)
           Example.queryOnly "mutation Refresh { ...Refreshed }").
Proof.
  split_and!; [reflexivity|by eexists|].
  intros [e He]. vm_compute in He. discriminate He.
Qed.

(** ** Entity Extractor *)

Lemma addObjectField_step formattedName acc f :
  let e := addObjectField formattedName acc f in
  pf_name <$> entity_fields e
    = (pf_name <$> entity_fields acc) ++ [field_name f]
  /\ nf_name <$> namespace_fields e
    = (nf_name <$> namespace_fields acc) ++ [field_name f]
  /\ entity_name e = entity_name acc
  /\ namespace_name e = namespace_name acc
  /\ (Forall (fun f => pf_type f = formattedName +:+ "." +:+ pf_name f)
        (entity_fields acc) ->
      Forall (fun f => pf_type f = formattedName +:+ "." +:+ pf_name f)
        (entity_fields e)).
Proof.
  unfold addObjectField.
  destruct (getIOTypeDefinition (field_type f) [] true) as [d imps]. simpl.
  rewrite !fmap_app. split_and!; try done.
  intros Hacc. apply Forall_app. split; [done|]. by apply Forall_singleton.
Qed.

Lemma foldl_addObjectField formattedName fields : forall acc,
  let e := foldl (addObjectField formattedName) acc fields in
  pf_name <$> entity_fields e
    = (pf_name <$> entity_fields acc) ++ (field_name <$> fields)
  /\ nf_name <$> namespace_fields e
    = (nf_name <$> namespace_fields acc) ++ (field_name <$> fields)
  /\ entity_name e = entity_name acc
  /\ namespace_name e = namespace_name acc
  /\ (Forall (fun f => pf_type f = formattedName +:+ "." +:+ pf_name f)
        (entity_fields acc) ->
      Forall (fun f => pf_type f = formattedName +:+ "." +:+ pf_name f)
        (entity_fields e)).
Proof.
  induction fields as [|f fields IH]; intros acc; simpl.
  - by rewrite !app_nil_r.
  - destruct (IH (addObjectField formattedName acc f))
      as (Hflat & Hns & Hname & Hnsname & Htypes).
    destruct (addObjectField_step formattedName acc f)
      as (Hflat1 & Hns1 & Hname1 & Hnsname1 & Htypes1).
    rewrite Hflat, Hns, Hname, Hnsname, Hflat1, Hns1, Hname1, Hnsname1.
    rewrite <- !app_assoc. split_and!; try done.
    intros Hacc. by apply Htypes, Htypes1.
Qed.

Lemma addInputField_step formattedName acc f :
  let e := addInputField formattedName acc f in
  pf_name <$> entity_fields e
    = (pf_name <$> entity_fields acc) ++ [input_name f]
  /\ nf_name <$> namespace_fields e
    = (nf_name <$> namespace_fields acc) ++ [input_name f]
  /\ entity_name e = entity_name acc
  /\ namespace_name e = namespace_name acc
  /\ (Forall (fun f => pf_type f = formattedName +:+ "." +:+ pf_name f)
        (entity_fields acc) ->
      Forall (fun f => pf_type f = formattedName +:+ "." +:+ pf_name f)
        (entity_fields e)).
Proof.
  unfold addInputField.
  destruct (getIOTypeDefinition (input_type f) [] true) as [d imps]. simpl.
  rewrite !fmap_app. split_and!; try done.
  intros Hacc. apply Forall_app. split; [done|]. by apply Forall_singleton.
Qed.

Lemma foldl_addInputField formattedName fields : forall acc,
  let e := foldl (addInputField formattedName) acc fields in
  pf_name <$> entity_fields e
    = (pf_name <$> entity_fields acc) ++ (input_name <$> fields)
  /\ nf_name <$> namespace_fields e
    = (nf_name <$> namespace_fields acc) ++ (input_name <$> fields)
  /\ entity_name e = entity_name acc
  /\ namespace_name e = namespace_name acc
  /\ (Forall (fun f => pf_type f = formattedName +:+ "." +:+ pf_name f)
        (entity_fields acc) ->
      Forall (fun f => pf_type f = formattedName +:+ "." +:+ pf_name f)
        (entity_fields e)).
Proof.
  induction fields as [|f fields IH]; intros acc; simpl.
  - by rewrite !app_nil_r.
  - destruct (IH (addInputField formattedName acc f))
      as (Hflat & Hns & Hname & Hnsname & Htypes).
    destruct (addInputField_step formattedName acc f)
      as (Hflat1 & Hns1 & Hname1 & Hnsname1 & Htypes1).
    rewrite Hflat, Hns, Hname, Hnsname, Hflat1, Hns1, Hname1, Hnsname1.
    rewrite <- !app_assoc. split_and!; try done.
    intros Hacc. by apply Htypes, Htypes1.
Qed.

Lemma parseObjectOrInterfaceType_consistent type :
  match parseObjectOrInterfaceType type with
  | Return e => consistentWith (field_name <$> obj_fields type) e
  | Throw _ => throws (toCamelCase (obj_name type))
  end.
Proof.
  unfold parseObjectOrInterfaceType.
  destruct (toCamelCase (obj_name type)) as [formattedName|e]; simpl;
    [|by eexists].
  destruct (foldl_addObjectField formattedName (obj_fields type)
              (mkEntity formattedName [] formattedName
                 (obj_description type) [] []))
    as (Hflat & Hns & Hname & Hnsname & Htypes).
  simpl in *. unfold consistentWith.
  rewrite Hflat, Hns, Hname, Hnsname. split_and!; try done.
  by apply Htypes.
Qed.

Lemma parseInputObjectType_consistent type :
  match parseInputObjectType type with
  | Return e => consistentWith (input_name <$> inobj_fields type) e
  | Throw _ => throws (toCamelCase (inobj_name type))
  end.
Proof.
  unfold parseInputObjectType.
  destruct (toCamelCase (inobj_name type)) as [formattedName|e]; simpl;
    [|by eexists].
  destruct (foldl_addInputField formattedName (inobj_fields type)
              (mkEntity formattedName [] formattedName
                 (inobj_description type) [] []))
    as (Hflat & Hns & Hname & Hnsname & Htypes).
  simpl in *. unfold consistentWith.
  rewrite Hflat, Hns, Hname, Hnsname. split_and!; try done.
  by apply Htypes.
Qed.

Lemma parseObjectOrInterfaceType_name type :
  match parseObjectOrInterfaceType type with
  | Return e => toCamelCase (obj_name type) = Return (entity_name e)
  | Throw _ => True
  end.
Proof.
  unfold parseObjectOrInterfaceType.
  destruct (toCamelCase (obj_name type)) as [formattedName|e]; simpl;
    [|done].
  by destruct (foldl_addObjectField formattedName (obj_fields type)
                 (mkEntity formattedName [] formattedName
                    (obj_description type) [] []))
    as (_ & _ & -> & _).
Qed.

Lemma parseInputObjectType_name type :
  match parseInputObjectType type with
  | Return e => toCamelCase (inobj_name type) = Return (entity_name e)
  | Throw _ => True
  end.
Proof.
  unfold parseInputObjectType.
  destruct (toCamelCase (inobj_name type)) as [formattedName|e]; simpl;
    [|done].
  by destruct (foldl_addInputField formattedName (inobj_fields type)
                 (mkEntity formattedName [] formattedName
                    (inobj_description type) [] []))
    as (_ & _ & -> & _).
Qed.

(** C7. For an object or interface type and for an input-object type whose
    field maps have one entry per name, extraction either fails in
    camel-casing the type name or yields an entity whose flat fields and
    namespace fields both carry exactly the declared field names, in the
    declared order and each once, whose namespace has the name of the
    entity, which is the camel-cased type name, and whose flat fields each
    have the type [<entity name>.<field name>]. *)
Theorem entity_fields_consistent type input :
  NoDup (field_name <$> obj_fields type) ->
  NoDup (input_name <$> inobj_fields input) ->
  match parseObjectOrInterfaceType type with
  | Return e =>
      consistentWith (field_name <$> obj_fields type) e
      /\ toCamelCase (obj_name type) = Return (entity_name e)
      /\ NoDup (pf_name <$> entity_fields e)
      /\ NoDup (nf_name <$> namespace_fields e)
  | Throw _ => throws (toCamelCase (obj_name type))
  end
  /\ match parseInputObjectType input with
     | Return e =>
         consistentWith (input_name <$> inobj_fields input) e
         /\ toCamelCase (inobj_name input) = Return (entity_name e)
         /\ NoDup (pf_name <$> entity_fields e)
         /\ NoDup (nf_name <$> namespace_fields e)
     | Throw _ => throws (toCamelCase (inobj_name input))
     end.
Proof.
  intros Hobj Hin. split.
  - pose proof (parseObjectOrInterfaceType_consistent type) as H.
    pose proof (parseObjectOrInterfaceType_name type) as Hname.
    destruct (parseObjectOrInterfaceType type) as [e|]; [|done].
    destruct H as (Hflat & Hns & Hrest).
    split_and!; [done|done|by rewrite Hflat|by rewrite Hns].
  - pose proof (parseInputObjectType_consistent input) as H.
    pose proof (parseInputObjectType_name input) as Hname.
    destruct (parseInputObjectType input) as [e|]; [|done].
    destruct H as (Hflat & Hns & Hrest).
    split_and!; [done|done|by rewrite Hflat|by rewrite Hns].
Qed.

Lemma entity_fields_consistent_witness :
  exists e,
    parseObjectOrInterfaceType Example.PostAuthor = Return e
    /\ consistentWith ["name"; "registeredAt"; "bannedAt"] e
    /\ toCamelCase "PostAuthor" = Return (entity_name e)
    /\ NoDup (pf_name <$> entity_fields e)
    /\ NoDup (nf_name <$> namespace_fields e).
Proof.
  assert (Hobj : NoDup (field_name <$> obj_fields Example.PostAuthor))
    by compute_done.
  assert (Hin : NoDup (input_name <$> inobj_fields Example.PostsInput))
    by compute_done.
  pose proof (proj1 (entity_fields_consistent Example.PostAuthor
                       Example.PostsInput Hobj Hin)) as H.
  eexists. split; [reflexivity|]. exact H.
Defined.

(** C9. Extracting [PostAuthor] of the example schema yields the three
    flat fields [name], [registeredAt], [bannedAt] in that order; in the
    namespace, [registeredAt] renders as [DateTime] and [bannedAt] as the
    nullable [DateTime | null]; and the import list is [DateTime], once. *)
Theorem PostAuthor_extraction :
  exists e,
    parseObjectOrInterfaceType Example.PostAuthor = Return e
    /\ pf_name <$> entity_fields e = ["name"; "registeredAt"; "bannedAt"]
    /\ (fun f => (nf_name f, nf_type f)) <$> namespace_fields e
       = [ ("name", "string");
           ("registeredAt", "DateTime");
           ("bannedAt", "DateTime | null") ]
    /\ entity_importTypes e = ["DateTime"].
Proof. eexists. split_and!; reflexivity. Qed.

(** ** Top-level declaration ordering *)

Lemma categoryOrder_weights i k :
  categoryOrder !! i = Some k -> weights k = Z.of_nat i.
Proof.
  do 6 (destruct i as [|i]; [by intros [= <-]|]). by destruct i.
Qed.

(** C8. For two named types of which the second has a declaration node:
    a first type without one compares below it (and it above that type),
    in either mode; in category-weight mode, two declared types compare
    as their positions in the order scalar, enum, interface, input-object,
    union, object; in as-is mode, as their start positions in the source
    text. *)
Theorem sorter_order display a b na nb i j :
  astNode b = Some nb ->
  (astNode a = None -> sorter display a b < 0 /\ 0 < sorter display b a)
  /\ (astNode a = Some na -> display <> "as-is" ->
      categoryOrder !! i = Some (kind na) ->
      categoryOrder !! j = Some (kind nb) ->
      (sorter display a b < 0 <-> (i < j)%nat)
      /\ (sorter display a b = 0 <-> i = j))
  /\ (astNode a = Some na ->
      (sorter "as-is" a b < 0 <-> (loc_start na < loc_start nb)%nat)
      /\ (0 < sorter "as-is" a b <-> (loc_start nb < loc_start na)%nat)).
Proof.
  intros Hb. unfold sorter. rewrite Hb. split_and!.
  - intros ->. simpl. lia.
  - intros -> Hd Hi Hj. simpl.
    rewrite bool_decide_eq_false_2 by done.
    rewrite (categoryOrder_weights _ _ Hi), (categoryOrder_weights _ _ Hj).
    lia.
  - intros ->. simpl. lia.
Qed.

(** The interface [Post] against the object [PostAuthor], by weight. *)
Lemma sorter_order_witness :
  sorter "default"
    (InterfaceType
       (mkObjectType "Post" None []
          (Some (mkTypeDefinitionNode InterfaceTypeDefinition 146))))
    (ObjectType Example.PostAuthor) < 0.
Proof.
  destruct (sorter_order "default"
              (InterfaceType
                 (mkObjectType "Post" None []
                    (Some (mkTypeDefinitionNode InterfaceTypeDefinition
                             146))))
              (ObjectType Example.PostAuthor)
              (mkTypeDefinitionNode InterfaceTypeDefinition 146)
              (mkTypeDefinitionNode ObjectTypeDefinition 0)
              2%nat 5%nat eq_refl) as (_ & Hweight & _).
  destruct Hweight as [Hlt _];
    [reflexivity|discriminate|reflexivity|reflexivity|].
  apply Hlt. lia.
Defined.

(** ** Naming *)

Lemma isLineTerminator_not_alnum c :
  isLineTerminator c = true -> isAlnum c = false.
Proof.
  destruct c as [[] [] [] [] [] [] [] []]; vm_compute; congruence.
Qed.

Lemma clear_alnum text : allChars isAlnum text = true -> clear text = text.
Proof.
  induction text as [|c text IH]; simpl; [done|].
  intros [Hc Htext]%andb_true_iff. rewrite Hc. by rewrite IH.
Qed.

(** [cleared] is empty exactly for the empty text and for one character
    outside the class followed by line terminators only. *)
Lemma clear_empty text :
  clear text = EmptyString <->
  text = EmptyString
  \/ exists c rest,
       text = String c rest /\ isAlnum c = false
       /\ allChars isLineTerminator rest = true.
Proof.
  induction text as [|c text IH]; simpl.
  - split; [by left|done].
  - destruct (isAlnum c) eqn:Hc.
    + split; [done|]. intros [|(c' & rest & [= <- <-] & Hc' & _)]; congruence.
    + destruct text as [|d text'].
      * split; [|done]. intros _. right. by exists c, EmptyString.
      * destruct (isLineTerminator d) eqn:Hd.
        -- rewrite IH. split.
           ++ intros [|(d' & rest & [= <- <-] & _ & Hrest)]; [done|].
              right. exists c, (String d text'). simpl. by rewrite Hd.
           ++ intros [|(c' & rest & [= <- <-] & _ & Hrest)]; [done|].
              right. exists d, text'. simpl in Hrest.
              apply andb_true_iff in Hrest as [_ Hrest].
              split_and!; [done| |done].
              by apply isLineTerminator_not_alnum.
        -- split; [done|].
           intros [|(c' & rest & [= <- <-] & _ & Hrest)]; [done|].
           simpl in Hrest. by rewrite Hd in Hrest.
Qed.

Lemma clear_has_alnum text :
  someChar isAlnum text = true -> clear text <> EmptyString.
Proof.
  intros Hsome Hclear. apply clear_empty in Hclear
    as [->|(c & rest & -> & Hc & Hrest)]; [done|].
  simpl in Hsome. rewrite Hc in Hsome. simpl in Hsome.
  clear c Hc. induction rest as [|d rest IH]; [done|].
  simpl in *. apply andb_true_iff in Hrest as [Hd Hrest].
  rewrite (isLineTerminator_not_alnum _ Hd) in Hsome. by apply IH.
Qed.

Lemma toCamelCase_throws text :
  throws (toCamelCase text) <-> clear text = EmptyString.
Proof.
  unfold toCamelCase, throws. destruct (clear text); split; try done.
  - by eexists.
  - by intros [e He].
Qed.

(** C10 (as the code has it). [toCamelCase] returns for every text that
    holds a letter or a digit, and for a text of letters and digits only
    it returns the text with its first character in upper case.  It
    raises the [TypeError] of reading a character of an empty string
    exactly when the text is empty or is one character that is neither
    letter nor digit, followed by line terminators only; any other text
    without letter or digit is camel-cased too.  [getCompiledOperationName]
    camel-cases the operation kind only; [getCompiledOperationNamespaceName]
    camel-cases the name and the kind, and raises when either does. *)
Theorem toCamelCase_totality text :
  (someChar isAlnum text = true -> returns (toCamelCase text))
  /\ (forall c rest,
        text = String c rest -> allChars isAlnum text = true ->
        toCamelCase text = Return (String (toUpperCase c) rest))
  /\ (toCamelCase text = Throw TypeError <->
      text = EmptyString
      \/ exists c rest,
           text = String c rest /\ isAlnum c = false
           /\ allChars isLineTerminator rest = true)
  /\ (returns (toCamelCase text) \/ toCamelCase text = Throw TypeError)
  /\ (forall name,
        throws (getCompiledOperationName name text)
        <-> throws (toCamelCase text))
  /\ (forall operation,
        throws (getCompiledOperationNamespaceName text operation)
        <-> throws (toCamelCase text) \/ throws (toCamelCase operation)).
Proof.
  split_and!.
  - intros Hsome. apply clear_has_alnum in Hsome.
    unfold toCamelCase. destruct (clear text); [done|by eexists].
  - intros c rest -> Hall. unfold toCamelCase.
    by rewrite (clear_alnum _ Hall).
  - rewrite <- clear_empty. unfold toCamelCase.
    destruct (clear text); split; done.
  - unfold toCamelCase. destruct (clear text); [by right|left; by eexists].
  - intros name. unfold getCompiledOperationName.
    destruct (toCamelCase text) as [r|e]; simpl; split;
      intros [e' He']; try done; by eexists.
  - intros operation. unfold getCompiledOperationNamespaceName.
    destruct (toCamelCase text) as [r|e]; simpl.
    + destruct (toCamelCase operation) as [r'|e']; simpl; split.
      * by intros [e He].
      * intros [[e He]|[e He]]; done.
      * intros _. right. by eexists.
      * intros _. by eexists.
    + split; [intros _; left|intros _]; by eexists.
Qed.

Lemma toCamelCase_totality_witness :
  someChar isAlnum "post_author" = true
  /\ returns (toCamelCase "post_author").
Proof.
  split; [reflexivity|].
  apply (toCamelCase_totality "post_author"). reflexivity.
Defined.

(** C10, counterexample. ["__"] holds no letter and no digit, and
    [toCamelCase] returns ["_"] for it; [getCompiledOperationName] leaves
    the operation name ["_"] as it is. *)
Lemma toCamelCase_underscores :
  someChar isAlnum "__" = false
  /\ toCamelCase "__" = Return "_"
  /\ ~ throws (toCamelCase "__")
  /\ getCompiledOperationName "_" "query" = Return "_Query".
Proof.
  split_and!; [reflexivity|reflexivity| |reflexivity].
  intros [e He]. discriminate He.
Qed.

(** * Further properties *)

(** ** Type Reference Resolver *)

Lemma getIOTypeDefinition_importTypes type : forall acc nullable,
  importTypes (getIOTypeDefinition type acc nullable)
  = pushCustom acc (getFirstNonWrappingType type).
Proof.
  induction type as [name|ofType IH|ofType IH]; intros acc nullable; simpl.
  - reflexivity.
  - specialize (IH acc true).
    destruct (getIOTypeDefinition ofType acc true) as [d imps].
    simpl in *. by rewrite foldl_pushCustom_self.
  - apply IH.
Qed.

Lemma getTypeNodeDefinition_importTypes node : forall acc nullable,
  importTypes (getTypeNodeDefinition node acc nullable)
  = pushCustom acc (leafName node).
Proof.
  induction node as [name|type IH|type IH]; intros acc nullable; simpl.
  - reflexivity.
  - specialize (IH acc true).
    destruct (getTypeNodeDefinition type acc true) as [d imps].
    simpl in *. by rewrite foldl_pushCustom_self.
  - apply IH.
Qed.

(** X1. Whatever its wrappers and whatever the nullable flag, a type
    reference adds to the import array exactly the name under its
    wrappers, at the end, and only if that name is no built-in scalar and
    is not in the array yet; on a fresh array the import list is that one
    name or nothing. *)
Theorem resolver_imports_leaf type node acc nullable :
  importTypes (getIOTypeDefinition type acc nullable)
    = pushCustom acc (getFirstNonWrappingType type)
  /\ importTypes (getTypeNodeDefinition node acc nullable)
    = pushCustom acc (leafName node)
  /\ importTypes (getIOTypeDefinition type [] nullable)
    = (if isGQLScalarType (getFirstNonWrappingType type) then []
       else [getFirstNonWrappingType type])
  /\ importTypes (getTypeNodeDefinition node [] nullable)
    = (if isGQLScalarType (leafName node) then [] else [leafName node]).
Proof.
  rewrite !getIOTypeDefinition_importTypes,
    !getTypeNodeDefinition_importTypes.
  split_and!; try reflexivity; unfold pushCustom;
    by destruct (isGQLScalarType _).
Qed.

Lemma getIOTypeDefinition_definition type : forall acc acc' nullable,
  definition (getIOTypeDefinition type acc nullable)
  = definition (getIOTypeDefinition type acc' nullable).
Proof.
  induction type as [name|ofType IH|ofType IH]; intros acc acc' nullable;
    simpl.
  - reflexivity.
  - specialize (IH acc acc' true).
    destruct (getIOTypeDefinition ofType acc true) as [d imps].
    destruct (getIOTypeDefinition ofType acc' true) as [d' imps'].
    simpl in *. by subst.
  - apply IH.
Qed.

(** The definition a reference renders to when it is, or is not, in a
    nullable position. *)
Lemma getIOTypeDefinition_nullable type acc :
  definition (getIOTypeDefinition type acc true)
  = match type with
    | GraphQLNonNull _ => definition (getIOTypeDefinition type acc false)
    | _ => makeNullable (definition (getIOTypeDefinition type acc false))
    end.
Proof.
  destruct type as [name|ofType|ofType]; simpl; [done| |done].
  by destruct (getIOTypeDefinition ofType acc true).
Qed.

(** X2. The definition string a reference renders to does not depend on
    the import array it is resolved with; and resolving in a nullable
    position only appends [ | null] to the rendering of the non-nullable
    position, unless the reference is [NonNull], which renders the same in
    both. *)
Theorem resolver_definition_structure type acc acc' nullable :
  definition (getIOTypeDefinition type acc nullable)
    = definition (getIOTypeDefinition type acc' nullable)
  /\ definition (getIOTypeDefinition type acc true)
    = match type with
      | GraphQLNonNull _ => definition (getIOTypeDefinition type acc false)
      | _ => definition (getIOTypeDefinition type acc false) +:+ " | null"
      end.
Proof.
  split; [apply getIOTypeDefinition_definition|].
  apply getIOTypeDefinition_nullable.
Qed.

(** X3. For a reference with at most one list layer whose elements are
    non-null, [getOutputTypeDefinitionWithWrappers] applied to the
    translated leaf name gives the definition [getIOTypeDefinition]
    renders; it looks at the outermost list layer only, so that the
    elements of a list never change its result. *)
Theorem getOutputTypeDefinitionWithWrappers_agrees type acc nullable :
  flatShape type = true ->
  getOutputTypeDefinitionWithWrappers type
    (transpileGQLTypeName (getFirstNonWrappingType type)) nullable
  = definition (getIOTypeDefinition type acc nullable)
  /\ forall element element' definition,
       getOutputTypeDefinitionWithWrappers (GraphQLList element)
         definition nullable
       = getOutputTypeDefinitionWithWrappers (GraphQLList element')
           definition nullable.
Proof.
  intros Hflat. split; [|done]. revert nullable.
  induction type as [name|ofType IH|ofType IH]; intros nullable; simpl.
  - reflexivity.
  - destruct ofType as [|?|[name| |]]; try discriminate. reflexivity.
  - by apply IH.
Qed.

Lemma getOutputTypeDefinitionWithWrappers_agrees_witness :
  flatShape
    (GraphQLNonNull (GraphQLList (GraphQLNonNull (GraphQLNamed "ID"))))
  = true
  /\ getOutputTypeDefinitionWithWrappers
       (GraphQLNonNull (GraphQLList (GraphQLNonNull (GraphQLNamed "ID"))))
       "any" true
     = "any[]".
Proof.
  split; [reflexivity|].
  apply (getOutputTypeDefinitionWithWrappers_agrees
           (GraphQLNonNull (GraphQLList (GraphQLNonNull (GraphQLNamed "ID"))))
           [] true eq_refl).
Defined.

(** ** Top-level declaration ordering *)

(** X4. The comparator is a consistent one: a type compares equal to
    itself, swapping the arguments negates the result, and "not after" is
    transitive, in either mode. *)
Theorem sorter_consistent display a b c :
  sorter display a a = 0
  /\ sorter display b a = - sorter display a b
  /\ (sorter display a b <= 0 -> sorter display b c <= 0 ->
      sorter display a c <= 0).
Proof.
  unfold sorter, getSorter.
  destruct (astNode a) as [na|], (astNode b) as [nb|],
    (astNode c) as [nc|]; destruct (bool_decide (display = "as-is"));
    lia.
Qed.

Lemma sorter_consistent_witness :
  sorter "as-is" (ScalarType "DateTime" None None)
    (ObjectType Example.Query) <= 0.
Proof.
  apply (sorter_consistent "as-is" (ScalarType "DateTime" None None)
           (ObjectType Example.PostAuthor) (ObjectType Example.Query));
    vm_compute; discriminate.
Defined.

(** ** Strings *)

Lemma string_app_cons c s t : String c s +:+ t = String c (s +:+ t).
Proof. reflexivity. Qed.

Lemma string_app_nil_r s : s +:+ EmptyString = s.
Proof.
  induction s as [|c s IH]; [done|]. by rewrite string_app_cons, IH.
Qed.

Lemma string_app_assoc s t u : (s +:+ t) +:+ u = s +:+ (t +:+ u).
Proof.
  induction s as [|c s IH]; [done|]. by rewrite !string_app_cons, IH.
Qed.

Lemma string_app_length s t :
  String.length (s +:+ t) = (String.length s + String.length t)%nat.
Proof.
  induction s as [|c s IH]; [done|]. rewrite string_app_cons. simpl.
  by rewrite IH.
Qed.

(** ** Naming *)

Lemma toUpperCase_not_lower c : isLower (toUpperCase c) = false.
Proof. by destruct c as [[] [] [] [] [] [] [] []]. Qed.

Lemma toUpperCase_alnum c :
  isAlnum c = true -> isAlnum (toUpperCase c) = true.
Proof. by destruct c as [[] [] [] [] [] [] [] []]. Qed.

Lemma toUpperCase_upper c : isLower c = false -> toUpperCase c = c.
Proof. unfold toUpperCase. by intros ->. Qed.

Lemma clear_length text :
  (String.length (clear text) <= String.length text)%nat
  /\ forall c,
       (String.length (clear (String c text))
        <= S (String.length text))%nat.
Proof.
  induction text as [|d text [IH1 IH2]].
  - split; [done|]. intros c. simpl. destruct (isAlnum c); simpl; lia.
  - split; [apply IH2|]. intros c.
    change (clear (String c (String d text)))
      with (if isAlnum c then String c (clear (String d text))
            else if isLineTerminator d then clear (String d text)
                 else String (toUpperCase d) (clear text)).
    specialize (IH2 d).
    destruct (isAlnum c); [cbn [String.length] in *; lia|].
    destruct (isLineTerminator d); cbn [String.length] in *; lia.
Qed.

Lemma clear_noAdjacentSeparators text :
  (noAdjacentSeparators text = true -> allChars isAlnum (clear text) = true)
  /\ forall c,
       noAdjacentSeparators (String c text) = true ->
       allChars isAlnum (clear (String c text)) = true.
Proof.
  induction text as [|d text [IH1 IH2]].
  - split; [done|]. intros c _. simpl.
    destruct (isAlnum c) eqn:Hc; simpl; [by rewrite Hc|done].
  - split; [apply IH2|]. intros c Hsep.
    change (clear (String c (String d text)))
      with (if isAlnum c then String c (clear (String d text))
            else if isLineTerminator d then clear (String d text)
                 else String (toUpperCase d) (clear text)).
    change (noAdjacentSeparators (String c (String d text)))
      with ((isAlnum c || isAlnum d)
            && noAdjacentSeparators (String d text)) in Hsep.
    apply andb_true_iff in Hsep as [Hcd Hrest].
    destruct (isAlnum c) eqn:Hc.
    + change (isAlnum c && allChars isAlnum (clear (String d text)) = true).
      rewrite Hc. by apply IH2.
    + simpl in Hcd.
      destruct (isLineTerminator d) eqn:Hd;
        [by rewrite (isLineTerminator_not_alnum _ Hd) in Hcd|].
      change (isAlnum (toUpperCase d) && allChars isAlnum (clear text)
              = true).
      rewrite (toUpperCase_alnum _ Hcd). apply IH1.
      simpl in Hrest. by apply andb_true_iff in Hrest as [_ ?].
Qed.

(** X5. What [toCamelCase] returns is never longer than the text and
    never starts with a lower-case letter; for a text in which no two
    characters other than letters and digits are adjacent (a snake-case or
    kebab-case name), it consists of letters and digits only. *)
Theorem toCamelCase_identifier text r :
  toCamelCase text = Return r ->
  (exists c rest, r = String c rest /\ isLower c = false)
  /\ (String.length r <= String.length text)%nat
  /\ (noAdjacentSeparators text = true -> allChars isAlnum r = true).
Proof.
  unfold toCamelCase. intros Hr.
  pose proof (proj1 (clear_length text)) as Hlen.
  pose proof (proj1 (clear_noAdjacentSeparators text)) as Hsep.
  destruct (clear text) as [|c rest]; [done|]. injection Hr as <-.
  split_and!.
  - eexists _, _. split; [done|apply toUpperCase_not_lower].
  - done.
  - intros Htext. specialize (Hsep Htext). simpl in *.
    apply andb_true_iff in Hsep as [Hc Hrest].
    by rewrite (toUpperCase_alnum _ Hc).
Qed.

Lemma toCamelCase_identifier_witness :
  toCamelCase "posts-by_author" = Return "PostsByAuthor"
  /\ allChars isAlnum "PostsByAuthor" = true.
Proof.
  split; [reflexivity|].
  by apply (toCamelCase_identifier "posts-by_author" "PostsByAuthor"
              eq_refl).
Defined.

Lemma toCamelCase_kind operation :
  toCamelCase (operationText operation) = Return (kindSuffix operation).
Proof. by destruct operation. Qed.

(** X6. For each of the three operation kinds, [getCompiledOperationName]
    returns the operation name followed by the capitalised kind, and
    [getCompiledOperationNamespaceName] the camel-cased operation name
    followed by the same; the two names are equal for an operation name
    of letters and digits that does not start with a lower-case letter. *)
Theorem operation_names name operation :
  getCompiledOperationName name (operationText operation)
    = Return (name +:+ kindSuffix operation)
  /\ (forall n,
        toCamelCase name = Return n ->
        getCompiledOperationNamespaceName name (operationText operation)
        = Return (n +:+ kindSuffix operation))
  /\ (forall c rest,
        name = String c rest -> allChars isAlnum name = true ->
        isLower c = false ->
        getCompiledOperationNamespaceName name (operationText operation)
        = getCompiledOperationName name (operationText operation)).
Proof.
  unfold getCompiledOperationName, getCompiledOperationNamespaceName.
  rewrite toCamelCase_kind. simpl. split_and!; [done| |].
  - by intros n ->.
  - intros c rest -> Hall Hc.
    unfold toCamelCase. rewrite (clear_alnum _ Hall). simpl.
    by rewrite (toUpperCase_upper _ Hc).
Qed.

Lemma operation_names_witness :
  getCompiledOperationNamespaceName "Posts" "query"
  = getCompiledOperationName "Posts" "query".
Proof.
  by apply (operation_names "Posts" query) with (c := "P"%char)
                                                 (rest := "osts").
Defined.

(** ** Splitting and joining *)

Lemma splitPath_splitOn text : splitPath text = splitOn "." text.
Proof. induction text as [|c text IH]; simpl; [done|by rewrite IH]. Qed.

Lemma segments_split path : segments path = split "." path.
Proof. unfold segments, split. by rewrite splitPath_splitOn. Qed.

Lemma split_cons sep c text :
  split sep (String c text)
  = if bool_decide (c = sep) then EmptyString :: split sep text
    else match split sep text with
         | first :: rest => String c first :: rest
         | [] => []
         end.
Proof.
  unfold split. simpl. destruct (splitOn sep text) as [first rest].
  by destruct (bool_decide (c = sep)).
Qed.

Lemma split_nonempty sep text : split sep text <> [].
Proof. done. Qed.

Lemma join_cons_cons sep p q rest :
  join sep (p :: q :: rest) = p +:+ sep +:+ join sep (q :: rest).
Proof. reflexivity. Qed.

Lemma join_split sep text :
  join (String sep EmptyString) (split sep text) = text.
Proof.
  induction text as [|c text IH]; [done|].
  rewrite split_cons. destruct (bool_decide (c = sep)) eqn:Hc; cbv iota.
  - apply bool_decide_eq_true in Hc as ->.
    unfold split in *. rewrite join_cons_cons. by rewrite IH.
  - unfold split in *. destruct (splitOn sep text) as [first [|q rest]];
      simpl in *; [by rewrite IH|].
    rewrite string_app_cons. by rewrite <- IH.
Qed.

Lemma split_sepFree sep text : Forall (fun p => sepFree sep p = true)
                                 (split sep text).
Proof.
  induction text as [|c text IH]; [by repeat constructor|].
  rewrite split_cons. destruct (bool_decide (c = sep)) eqn:Hc; cbv iota.
  - by constructor.
  - unfold split in *. destruct (splitOn sep text) as [first rest].
    simpl in *. apply Forall_cons in IH as [Hfirst Hrest].
    constructor; [|done]. unfold sepFree in *. simpl. by rewrite Hc.
Qed.

Lemma split_of_sepFree sep text :
  sepFree sep text = true -> split sep text = [text].
Proof.
  induction text as [|c text IH]; [done|]. unfold sepFree. simpl.
  intros [Hc Htext]%andb_true_iff. rewrite split_cons.
  apply negb_true_iff in Hc. rewrite Hc. by rewrite (IH Htext).
Qed.

Lemma split_app sep p q :
  split sep (p +:+ String sep EmptyString +:+ q)
  = split sep p ++ split sep q.
Proof.
  induction p as [|c p IH].
  - change (split sep (String sep q) = EmptyString :: split sep q).
    rewrite split_cons. by rewrite bool_decide_eq_true_2.
  - rewrite string_app_cons, !split_cons, IH.
    destruct (bool_decide (c = sep)); [done|].
    unfold split. by destruct (splitOn sep p).
Qed.

Lemma split_join sep parts :
  parts <> [] -> Forall (fun p => sepFree sep p = true) parts ->
  split sep (join (String sep EmptyString) parts) = parts.
Proof.
  induction parts as [|p [|q rest] IH]; intros Hne Hfree; [done| |].
  - apply Forall_cons in Hfree as [Hp _]. by apply split_of_sepFree.
  - apply Forall_cons in Hfree as [Hp Hrest].
    rewrite join_cons_cons, split_app, (split_of_sepFree _ _ Hp).
    by rewrite IH.
Qed.

(** X7. Splitting a path on its dots and joining the segments with dots
    gives the path back; no segment holds a dot; the segments of [p.q] are
    those of [p] followed by those of [q]; and a non-empty list of dot-free
    names is the list of segments of its dotted join. *)
Theorem segments_join path :
  join "." (segments path) = path
  /\ Forall (fun p => sepFree "." p = true) (segments path)
  /\ (forall q, segments (path +:+ "." +:+ q) = segments path ++ segments q)
  /\ (forall parts,
        parts <> [] -> Forall (fun p => sepFree "." p = true) parts ->
        segments (join "." parts) = parts).
Proof.
  split_and!.
  - rewrite segments_split. apply join_split.
  - rewrite segments_split. apply split_sepFree.
  - intros q. rewrite !segments_split. apply split_app.
  - intros parts Hne Hfree. rewrite segments_split. by apply split_join.
Qed.

Lemma segments_join_witness :
  segments (join "." ["posts"; "author"; "name"])
  = ["posts"; "author"; "name"].
Proof.
  apply (segments_join ""); [done|by repeat constructor].
Defined.

(** ** Field-Path Navigator *)

Lemma getField_Some fields key field :
  getField fields key = Some field ->
  field ∈ fields /\ field_name field = key.
Proof.
  induction fields as [|f fields IH]; simpl; [done|].
  destruct (bool_decide (field_name f = key)) eqn:Hf.
  - intros [= <-]. apply bool_decide_eq_true in Hf.
    split; [apply list_elem_of_here|done].
  - intros [Hin Hname]%IH. split; [by apply list_elem_of_further|done].
Qed.

Lemma getField_fieldNamed fields key field :
  getField fields key = Some field <-> fieldNamed fields key field.
Proof.
  unfold fieldNamed. induction fields as [|f fields IH]; simpl.
  - split; [done|]. intros (before & after & Heq & _). by destruct before.
  - destruct (bool_decide (field_name f = key)) eqn:Hf.
    + apply bool_decide_eq_true in Hf. split.
      * intros [= <-]. by exists [], fields.
      * intros ([|g before] & after & Heq & Hname & Hbefore).
        -- by injection Heq as ->.
        -- injection Heq as <- _. by apply Forall_cons in Hbefore as [? _].
    + apply bool_decide_eq_false in Hf. rewrite IH. split.
      * intros (before & after & -> & Hname & Hbefore).
        exists (f :: before), after. split_and!; [done|done|].
        by constructor.
      * intros ([|g before] & after & Heq & Hname & Hbefore).
        -- injection Heq as -> _. done.
        -- injection Heq as <- ->. exists before, after.
           split_and!; [done|done|]. by apply Forall_cons in Hbefore as [_ ?].
Qed.

Lemma getField_absent fields key :
  getField fields key = None <-> absent fields key.
Proof.
  unfold absent. induction fields as [|f fields IH]; simpl.
  - split; [by constructor|done].
  - destruct (bool_decide (field_name f = key)) eqn:Hf.
    + apply bool_decide_eq_true in Hf. split; [done|].
      by intros [? _]%Forall_cons.
    + apply bool_decide_eq_false in Hf. rewrite IH. split.
      * by constructor.
      * by intros [_ ?]%Forall_cons.
Qed.

Lemma descends_reaches types root parts field :
  descends types root parts field <-> reaches types root parts field.
Proof.
  split.
  - induction 1 as [name field Hget|parts field fields name field' _ IH Hd Hget].
    + constructor. by apply getField_fieldNamed.
    + econstructor; [done|done|]. by apply getField_fieldNamed.
  - induction 1 as [name field Hget|parts field fields name field' _ IH Hd Hget].
    + constructor. by apply getField_fieldNamed.
    + econstructor; [done|done|]. by apply getField_fieldNamed.
Qed.

Lemma dottedParts_segments path parts :
  dottedParts path parts <-> parts = segments path.
Proof.
  unfold dottedParts. rewrite segments_split. split.
  - intros (Hne & Hfree & <-). symmetry. by apply split_join.
  - intros ->. split_and!; [done|apply split_sepFree|apply join_split].
Qed.

(** C4. [getIn], applied to a root object type and the dotted path of the
    names [parts], returns exactly when literal descent along [parts]
    reaches an entry of a field map: each name is looked up in the current
    field map, and the next field map is that of the object or interface
    type left once the List and NonNull layers of the field's type are
    stripped.  What it returns is that entry (as the field config of the
    root type for a path of one name), with the type the entry declares,
    wrappers included.  It raises [Unable to find path <path>], naming the
    path it was given, exactly when some non-empty prefix of [parts]
    cannot be reached; a prefix cannot be reached when its last name is
    absent from the current field map or when there is no field map to
    look it up in.  On the example schema, [posts.author.name] is found
    through [[PostedPost!]!] and [PostAuthor!] and [posts] is returned with
    its wrappers, while [comments], [posts.author.nam] and [posts.id.x]
    raise the error. *)
Theorem getIn_literal_descent types root path :
  (forall r,
     getIn types (Some root) path = Return r
     <-> exists parts field,
           dottedParts path parts
           /\ reaches types root parts field
           /\ r = returnedAs parts field)
  /\ (forall r,
        getIn types (Some root) path = Return r ->
        exists parts field,
          dottedParts path parts
          /\ reaches types root parts field
          /\ typeOf r = field_type field)
  /\ (getIn types (Some root) path
        = Throw (Error ("Unable to find path " +:+ path))
      <-> exists parts p,
            dottedParts path parts
            /\ p <> [] /\ p `prefix_of` parts
            /\ forall field, ~ reaches types root p field)
  /\ (returns (getIn types (Some root) path)
      \/ getIn types (Some root) path
         = Throw (Error ("Unable to find path " +:+ path)))
  /\ (forall name,
        (forall field, ~ reaches types root [name] field)
        <-> absent (obj_fields root) name)
  /\ (forall parts field name,
        reaches types root parts field ->
        (forall field', ~ reaches types root (parts ++ [name]) field')
        <-> forall fields,
              descendable types (field_type field) fields ->
              absent fields name)
  /\ (exists r,
        getIn Example.types (Some Example.Query) "posts.author.name"
        = Return r
        /\ r = IsField
                 (mkField "name" (Some "User full name")
                    (GraphQLNonNull (GraphQLNamed "String")) [])
        /\ typeOf r = GraphQLNonNull (GraphQLNamed "String"))
  /\ (exists r,
        getIn Example.types (Some Example.Query) "posts" = Return r
        /\ typeOf r
           = GraphQLNonNull
               (GraphQLList (GraphQLNonNull (GraphQLNamed "PostedPost"))))
  /\ getIn Example.types (Some Example.Query) "comments"
     = Throw (Error "Unable to find path comments")
  /\ getIn Example.types (Some Example.Query) "posts.author.nam"
     = Throw (Error "Unable to find path posts.author.nam")
  /\ getIn Example.types (Some Example.Query) "posts.id.x"
     = Throw (Error "Unable to find path posts.id.x").
Proof.
  assert (Hret : forall r,
             getIn types (Some root) path = Return r
             <-> exists parts field,
                   dottedParts path parts
                   /\ reaches types root parts field
                   /\ r = returnedAs parts field).
  { intros r. rewrite getIn_returns. split.
    - intros (field & Hd & ->). exists (segments path), field.
      split_and!; [by apply dottedParts_segments
                  |by apply descends_reaches|done].
    - intros (parts & field & ->%dottedParts_segments & Hr & ->).
      exists field. split; [by apply descends_reaches|done]. }
  split_and!.
  - exact Hret.
  - intros r (parts & field & Hparts & Hr & ->)%Hret.
    exists parts, field. split_and!; [done|done|apply typeOf_returnedAs].
  - split.
    + intros Hthrow. exists (segments path), (segments path).
      split_and!; [by apply dottedParts_segments|done|done|].
      intros field Hr. apply descends_reaches in Hr.
      assert (getIn types (Some root) path
              = Return (returnedAs (segments path) field)) as Heq
        by (apply getIn_returns; eauto).
      congruence.
    + intros (parts & p & ->%dottedParts_segments & Hne & Hp & Hnone).
      destruct (getIn_cases types root path) as [[r Hr]|Hthrow]; [|done].
      apply getIn_returns in Hr as (field & Hd & _).
      destruct (descends_prefix _ _ _ _ Hd p Hne Hp) as [g Hg].
      by apply descends_reaches, Hnone in Hg.
  - apply getIn_cases.
  - intros name. rewrite <- getField_absent. split.
    + intros Hnone.
      destruct (getField (obj_fields root) name) as [f|] eqn:Hget; [|done].
      destruct (Hnone f). constructor. by apply getField_fieldNamed.
    + intros Hget field Hr. apply descends_reaches in Hr.
      apply (descends_snoc_inv _ _ []) in Hr
        as [[_ Hf]|(g & ? & Hg & _)]; [congruence|].
      by apply descends_nonempty in Hg.
  - intros parts field name Hr. split.
    + intros Hnone fields Hdesc. apply getField_absent.
      destruct (getField fields name) as [f|] eqn:Hget; [|done].
      destruct (Hnone f). econstructor; [done|done|].
      by apply getField_fieldNamed.
    + intros Habsent field' Hr'.
      apply descends_reaches, descends_snoc_inv in Hr'
        as [[-> _]|(g & fields & Hg & Hdesc & Hget)].
      * apply descends_reaches in Hr. by apply descends_nonempty in Hr.
      * apply descends_reaches in Hr.
        rewrite (descends_det _ _ _ _ _ Hg Hr) in Hdesc.
        apply Habsent, getField_absent in Hdesc. congruence.
  - eexists. split_and!; [vm_compute; reflexivity|reflexivity|reflexivity].
  - eexists. split; [vm_compute; reflexivity|reflexivity].
  - vm_compute. reflexivity.
  - vm_compute. reflexivity.
  - vm_compute. reflexivity.
Qed.

(** X8. Resolving the path [p.s], for a name [s] without dot, is resolving
    [p] and then looking [s] up in the field map of the object or interface
    type under the wrappers of the type found; the result is then the
    field of that map, which is named [s]. *)
Theorem getIn_extend types root p s r :
  sepFree "." s = true ->
  getIn types (Some root) (p +:+ "." +:+ s) = Return r
  <-> exists found fields field',
        getIn types (Some root) p = Return found
        /\ descendable types (typeOf found) fields
        /\ getField fields s = Some field'
        /\ field_name field' = s
        /\ r = IsField field'.
Proof.
  intros Hs. rewrite getIn_returns.
  rewrite (segments_split (p +:+ "." +:+ s)), (split_app "." p s).
  rewrite <- (segments_split p), (split_of_sepFree _ _ Hs).
  assert (Hform : forall f,
             returnedAs (segments p ++ [s]) f = IsField f).
  { intros f. unfold segments. by destruct (splitPath p).2. }
  split.
  - intros (field' & Hd & ->).
    apply descends_snoc_inv in Hd
      as [[Hnil _]|(field & fields & Hd & Hdesc & Hget)]; [done|].
    exists (returnedAs (segments p) field), fields, field'.
    rewrite typeOf_returnedAs.
    split_and!; [|done|done|apply (getField_Some _ _ _ Hget)|apply Hform].
    apply getIn_returns. eauto.
  - intros (found & fields & field' & Hfound & Hdesc & Hget & _ & ->).
    apply getIn_returns in Hfound as (field & Hd & ->).
    rewrite typeOf_returnedAs in Hdesc.
    exists field'. split; [by econstructor|by rewrite Hform].
Qed.

Lemma getIn_extend_witness :
  getIn Example.types (Some Example.Query) "posts.author"
  = Return
      (IsField
         (mkField "author" (Some "Post author")
            (Example.nonNull "PostAuthor") [])).
Proof.
  apply (getIn_extend Example.types Example.Query "posts" "author" _ eq_refl).
  eexists _, (obj_fields Example.PostedPost), _.
  split_and!; [reflexivity| |reflexivity|reflexivity|reflexivity].
  apply descendable_lookup. exists Example.PostedPost.
  split; [left; reflexivity|reflexivity].
Defined.

(** ** Formatting helpers *)

Lemma getSpaces_S count :
  getSpaces (S count) = String " " (getSpaces count).
Proof. unfold getSpaces. by destruct count. Qed.

Lemma getSpaces_add a b : getSpaces b +:+ getSpaces a = getSpaces (a + b).
Proof.
  induction b as [|b IH]; [by rewrite Nat.add_0_r|].
  rewrite Nat.add_succ_r, !getSpaces_S, string_app_cons. by rewrite IH.
Qed.

Lemma getSpaces_length count : String.length (getSpaces count) = count.
Proof.
  induction count as [|count IH]; [done|].
  rewrite getSpaces_S. simpl. by rewrite IH.
Qed.

Lemma sepFree_app sep s t :
  sepFree sep (s +:+ t) = sepFree sep s && sepFree sep t.
Proof.
  unfold sepFree. induction s as [|c s IH]; [done|].
  rewrite string_app_cons. simpl. by rewrite IH, andb_assoc.
Qed.

Lemma getSpaces_sepFree count : sepFree LF (getSpaces count) = true.
Proof.
  induction count as [|count IH]; [done|]. by rewrite getSpaces_S.
Qed.

Lemma indent_sepFree spaces p :
  sepFree LF spaces = true -> sepFree LF p = true ->
  sepFree LF (indent spaces p) = true.
Proof.
  intros Hs Hp. unfold indent. destruct (String.length p =? 0)%nat; [done|].
  by rewrite sepFree_app, Hs, Hp.
Qed.

Lemma indent_indent a b p :
  indent b (indent a p) = indent (b +:+ a) p.
Proof.
  unfold indent. destruct (String.length p =? 0)%nat eqn:Hp.
  - by rewrite Hp.
  - rewrite string_app_length. apply Nat.eqb_neq in Hp.
    destruct (_ =? 0)%nat eqn:Hap; [apply Nat.eqb_eq in Hap; lia|].
    by rewrite string_app_assoc.
Qed.

Lemma indent_empty p : indent EmptyString p = p.
Proof. unfold indent. by destruct (_ =? 0)%nat. Qed.

Lemma withSpaces_lines text spacesCount :
  split LF (withSpaces text spacesCount)
  = indent (getSpaces spacesCount) <$> split LF text.
Proof.
  apply (split_join LF (indent (getSpaces spacesCount) <$> split LF text)).
  - done.
  - apply Forall_fmap. eapply Forall_impl; [apply split_sepFree|].
    intros p Hp. apply indent_sepFree; [apply getSpaces_sepFree|done].
Qed.

(** X9. Indenting by no space gives the text back; indenting by [a]
    spaces and then by [b] is indenting by [a + b]; every line of the
    result is the indented line of the text, an empty line staying
    empty. *)
Theorem withSpaces_compose text a b :
  withSpaces text 0 = text
  /\ withSpaces (withSpaces text a) b = withSpaces text (a + b)
  /\ split LF (withSpaces text a)
     = (fun p => if bool_decide (p = EmptyString) then EmptyString
                 else getSpaces a +:+ p) <$> split LF text.
Proof.
  split_and!.
  - unfold withSpaces. rewrite <- (join_split LF text) at 2. f_equal.
    rewrite <- (list_fmap_id (split LF text)) at 2.
    apply list_fmap_ext. intros i p _. apply indent_empty.
  - unfold withSpaces at 1. fold (indent (getSpaces b)).
    rewrite withSpaces_lines, <- list_fmap_compose.
    unfold withSpaces. f_equal. apply list_fmap_ext. intros i p _. simpl.
    by rewrite indent_indent, getSpaces_add.
  - rewrite withSpaces_lines. apply list_fmap_ext. intros i p _.
    unfold indent. by destruct p.
Qed.

Lemma split_description d :
  sepFree LF d = true ->
  split LF ("/**" +:+ newline +:+ " * " +:+ d +:+ newline +:+ " */")
  = ["/**"; " * " +:+ d; " */"].
Proof.
  intros Hd. unfold newline.
  rewrite (split_app LF "/**").
  rewrite <- (string_app_assoc " * " d), (split_app LF (" * " +:+ d)).
  rewrite (split_of_sepFree LF (" * " +:+ d)); [done|].
  by rewrite sepFree_app, Hd.
Qed.

(** X10. [formatDescription] gives the empty string for a missing or
    empty description; for a description of one line it gives the three
    lines of a block comment, each indented by [spacesCount] spaces and
    ended by a line feed. *)
Theorem formatDescription_block d spacesCount :
  d <> EmptyString -> sepFree LF d = true ->
  formatDescription (Some d) spacesCount
  = getSpaces spacesCount +:+ "/**" +:+ newline
    +:+ getSpaces spacesCount +:+ " * " +:+ d +:+ newline
    +:+ getSpaces spacesCount +:+ " */" +:+ newline
  /\ formatDescription None spacesCount = EmptyString
  /\ formatDescription (Some EmptyString) spacesCount = EmptyString.
Proof.
  intros Hne Hd. split; [|done].
  destruct d as [|c d]; [done|]. unfold formatDescription, withSpaces.
  rewrite (split_description _ Hd).
  set (sp := getSpaces spacesCount).
  change (join newline
            [sp +:+ "/**"; sp +:+ (" * " +:+ String c d); sp +:+ " */"]
          +:+ newline
          = sp +:+ "/**" +:+ newline +:+ sp +:+ " * " +:+ String c d
            +:+ newline +:+ sp +:+ " */" +:+ newline).
  rewrite !join_cons_cons.
  change (join newline [sp +:+ " */"]) with (sp +:+ " */").
  by rewrite !string_app_assoc.
Qed.

Lemma formatDescription_block_witness :
  formatDescription (Some "Post id") 2
  = "  /**" +:+ newline +:+ "   * Post id" +:+ newline +:+ "   */"
    +:+ newline.
Proof.
  by apply (formatDescription_block "Post id" 2).
Defined.

(** X17. [withCwd] puts the working directory and a slash before the
    path, a leading slash of the path standing for that slash: two paths
    resolve to the same place exactly when they are equal up to one leading
    slash. *)
Theorem withCwd_leading_slash cwd path path' :
  withCwd cwd path = cwd +:+ "/" +:+ dropSlash path
  /\ (withCwd cwd path = withCwd cwd path'
      <-> dropSlash path = dropSlash path').
Proof.
  assert (H : forall p, withCwd cwd p = cwd +:+ "/" +:+ dropSlash p).
  { intros [|c p]; [done|]. unfold withCwd, dropSlash.
    destruct c as [[] [] [] [] [] [] [] []]; reflexivity. }
  split; [apply H|]. rewrite !H. split; [|by intros ->].
  intros Heq. apply (inj (String.append cwd)) in Heq.
  by injection Heq.
Qed.

(** ** Dependency aggregation *)

Lemma pushIfAbsent_present arr x : x ∈ arr -> pushIfAbsent arr x = arr.
Proof.
  intros Hin. unfold pushIfAbsent. apply includes_true in Hin.
  by rewrite Hin.
Qed.

Lemma addAll_present src : forall dst,
  (forall x, x ∈ src -> x ∈ dst) -> addAll dst src = dst.
Proof.
  unfold addAll. induction src as [|x src IH]; intros dst Hsub; simpl;
    [done|].
  rewrite pushIfAbsent_present by (apply Hsub, list_elem_of_here).
  apply IH. intros y Hy. by apply Hsub, list_elem_of_further.
Qed.

Lemma addAll_fresh src : forall dst,
  NoDup (dst ++ src) -> addAll dst src = dst ++ src.
Proof.
  unfold addAll. induction src as [|x src IH]; intros dst Hnd; simpl.
  - by rewrite app_nil_r.
  - rewrite cons_middle, app_assoc in Hnd |- *.
    rewrite <- IH by done. f_equal. unfold pushIfAbsent.
    apply NoDup_app in Hnd as [Hnd _]. apply NoDup_app in Hnd as (_ & Hx & _).
    destruct (includes dst x) eqn:Hin; [|done].
    apply includes_true in Hin. destruct (Hx x Hin). apply list_elem_of_here.
Qed.

(** X16. Merging a list of names into an array that has no duplicate
    keeps the array as a prefix, adds no duplicate, ends with exactly the
    names of both, and changes nothing when repeated; merging a
    duplicate-free list into the empty array gives that list, in its
    order. *)
Theorem addAll_merge dst src :
  NoDup dst ->
  NoDup (addAll dst src)
  /\ dst `prefix_of` addAll dst src
  /\ (forall x, x ∈ addAll dst src <-> x ∈ dst \/ x ∈ src)
  /\ addAll (addAll dst src) src = addAll dst src
  /\ (NoDup src -> addAll [] src = src).
Proof.
  intros Hnd. split_and!.
  - by apply addAll_NoDup.
  - apply addAll_prefix.
  - intros x. apply addAll_elem_of.
  - apply addAll_present. intros x Hx. apply addAll_elem_of. by right.
  - intros Hsrc. by apply (addAll_fresh src []).
Qed.

Lemma addAll_merge_witness :
  addAll ["DateTime"] ["PostedPost"; "DateTime"; "PostedPost"]
  = ["DateTime"; "PostedPost"]
  /\ NoDup (addAll ["DateTime"] ["PostedPost"; "DateTime"; "PostedPost"]).
Proof.
  split; [reflexivity|].
  apply (addAll_merge ["DateTime"] ["PostedPost"; "DateTime"; "PostedPost"]).
  compute_done.
Defined.

Lemma pushCustom_nil_elem_of t x :
  x ∈ pushCustom [] t <-> isGQLScalarType x = false /\ x = t.
Proof.
  unfold pushCustom. destruct (isGQLScalarType t) eqn:Ht; simpl.
  - rewrite elem_of_nil. split; [done|]. intros [Hx ->]. congruence.
  - rewrite list_elem_of_singleton. split; [by intros ->|by intros [_ ->]].
Qed.

(** ** Entity Extractor *)

Lemma prepareArgument_importTypes argAcc arg :
  po_importTypes (prepareArgument argAcc arg)
  = addAll (po_importTypes argAcc)
      (pushCustom [] (getFirstNonWrappingType (arg_type arg))).
Proof.
  unfold prepareArgument.
  pose proof (getIOTypeDefinition_importTypes (arg_type arg) [] true) as H.
  destruct (getIOTypeDefinition (arg_type arg) [] true) as [d imps].
  simpl in *. by subst.
Qed.

Lemma preparedArguments_elem_of args x : forall argAcc,
  x ∈ po_importTypes (foldl prepareArgument argAcc args)
  <-> x ∈ po_importTypes argAcc
      \/ (isGQLScalarType x = false
          /\ exists a,
               a ∈ args /\ x = getFirstNonWrappingType (arg_type a)).
Proof.
  induction args as [|arg args IH]; intros argAcc; simpl.
  - split; [by left|]. intros [?|(_ & a & Ha & _)]; [done|].
    by apply elem_of_nil in Ha.
  - rewrite IH, prepareArgument_importTypes, addAll_elem_of,
      pushCustom_nil_elem_of. split.
    + intros [[?|[Hx ->]]|(Hx & a & Ha & ->)]; [by left| |].
      * right. split; [done|]. exists arg. split; [left|done].
      * right. split; [done|]. exists a. split; [by right|done].
    + intros [?|(Hx & a & Ha & ->)]; [by left; left|].
      apply elem_of_cons in Ha as [->|Ha].
      * left. by right.
      * right. split; [done|]. by exists a.
Qed.

Lemma addObjectField_importTypes formattedName acc f :
  entity_importTypes (addObjectField formattedName acc f)
  = addAll (entity_importTypes acc)
      (pushCustom [] (getFirstNonWrappingType (field_type f))
       ++ po_importTypes
            (foldl prepareArgument (mkPreparedObject "Arguments" [] [])
               (field_args f))).
Proof.
  unfold addObjectField.
  pose proof (getIOTypeDefinition_importTypes (field_type f) [] true) as H.
  destruct (getIOTypeDefinition (field_type f) [] true) as [d imps].
  simpl in *. by subst.
Qed.

Lemma entity_importTypes_elem_of formattedName fields x : forall acc,
  x ∈ entity_importTypes (foldl (addObjectField formattedName) acc fields)
  <-> x ∈ entity_importTypes acc
      \/ (isGQLScalarType x = false
          /\ exists f,
               f ∈ fields
               /\ (x = getFirstNonWrappingType (field_type f)
                   \/ exists a,
                        a ∈ field_args f
                        /\ x = getFirstNonWrappingType (arg_type a))).
Proof.
  induction fields as [|f fields IH]; intros acc; simpl.
  - split; [by left|]. intros [?|(_ & f & Hf & _)]; [done|].
    by apply elem_of_nil in Hf.
  - rewrite IH, addObjectField_importTypes, addAll_elem_of, elem_of_app,
      pushCustom_nil_elem_of, preparedArguments_elem_of. simpl.
    rewrite elem_of_nil. split.
    + intros [[?|[[Hx ->]|[[]|(Hx & a & Ha & ->)]]]|(Hx & g & Hg & Hor)].
      * by left.
      * right. split; [done|]. exists f. split; [left|by left].
      * right. split; [done|]. exists f. split; [left|]. right. by exists a.
      * right. split; [done|]. exists g. split; [by right|done].
    + intros [?|(Hx & g & Hg & Hor)]; [by left; left|].
      apply elem_of_cons in Hg as [->|Hg].
      * left. right. destruct Hor as [->|(a & Ha & ->)]; [by left|].
        right. right. split; [done|]. by exists a.
      * right. split; [done|]. by exists g.
Qed.

(** X11. The import list of an extracted object or interface entity has no
    duplicate and names exactly the custom types the type refers to: the
    names under the wrappers of its field types and of its argument types
    that are no built-in scalar. *)
Theorem entity_imports_exact type e :
  parseObjectOrInterfaceType type = Return e ->
  NoDup (entity_importTypes e)
  /\ forall x, x ∈ entity_importTypes e <-> refersTo type x.
Proof.
  intros Hparse.
  split; [by apply (parseObjectOrInterfaceType_clean type)|].
  revert Hparse. unfold parseObjectOrInterfaceType.
  destruct (toCamelCase (obj_name type)) as [formattedName|]; simpl;
    [|done].
  intros [= <-] x. rewrite entity_importTypes_elem_of. simpl.
  rewrite elem_of_nil. unfold refersTo. tauto.
Qed.

Lemma entity_imports_exact_witness :
  exists e,
    parseObjectOrInterfaceType Example.Query = Return e
    /\ forall x, x ∈ entity_importTypes e <-> refersTo Example.Query x.
Proof.
  eexists. split; [reflexivity|].
  by apply (entity_imports_exact Example.Query).
Defined.

(** ** Operation Assembler *)

Lemma addVariable_importTypes acc n :
  po_importTypes (addVariable acc n)
  = addAll (po_importTypes acc) (pushCustom [] (leafName (var_type n)))
  /\ po_name (addVariable acc n) = po_name acc
  /\ po_fields (addVariable acc n)
     = po_fields acc
       ++ [mkPreparedField (variable n) None
             (definition (getTypeNodeDefinition (var_type n) [] true))].
Proof.
  unfold addVariable.
  pose proof (getTypeNodeDefinition_importTypes (var_type n) [] true) as H.
  destruct (getTypeNodeDefinition (var_type n) [] true) as [d imps].
  simpl in *. by subst.
Qed.

Lemma foldl_addVariable nodes : forall acc,
  let args := foldl addVariable acc nodes in
  po_name args = po_name acc
  /\ po_fields args
     = po_fields acc
       ++ ((fun n =>
              mkPreparedField (variable n) None
                (definition (getTypeNodeDefinition (var_type n) [] true)))
             <$> nodes)
  /\ (cleanImports (po_importTypes acc) ->
      cleanImports (po_importTypes args))
  /\ forall x,
       x ∈ po_importTypes args
       <-> x ∈ po_importTypes acc
           \/ (isGQLScalarType x = false
               /\ exists n, n ∈ nodes /\ x = leafName (var_type n)).
Proof.
  induction nodes as [|n nodes IH]; intros acc; simpl.
  - rewrite app_nil_r. split_and!; try done. intros x.
    split; [by left|]. intros [?|(_ & n & Hn & _)]; [done|].
    by apply elem_of_nil in Hn.
  - destruct (IH (addVariable acc n)) as (Hname & Hfields & Hclean & Helem).
    destruct (addVariable_importTypes acc n) as (Himps & Hname1 & Hfields1).
    rewrite Hname, Hfields, Hname1, Hfields1, <- app_assoc.
    split_and!; try done.
    + intros Hacc. apply Hclean. rewrite Himps.
      apply addAll_clean; [done|].
      apply Forall_forall. intros x Hx.
      by apply pushCustom_nil_elem_of in Hx as [? _].
    + intros x. rewrite Helem, Himps, addAll_elem_of,
        pushCustom_nil_elem_of. split.
      * intros [[?|[Hx ->]]|(Hx & m & Hm & ->)]; [by left| |].
        -- right. split; [done|]. exists n. split; [left|done].
        -- right. split; [done|]. exists m. split; [by right|done].
      * intros [?|(Hx & m & Hm & ->)]; [by left; left|].
        apply elem_of_cons in Hm as [->|Hm].
        -- left. by right.
        -- right. split; [done|]. by exists m.
Qed.

(** X12. The [Arguments] record of an operation lists its variables in
    their order, each with the definition its type renders to, and its
    import list has no duplicate and names exactly the custom types under
    the wrappers of the variable types. *)
Theorem parseOperationVariableDefinitions_record nodes :
  po_name (parseOperationVariableDefinitions nodes) = "Arguments"
  /\ po_fields (parseOperationVariableDefinitions nodes)
     = (fun n =>
          mkPreparedField (variable n) None
            (definition (getTypeNodeDefinition (var_type n) [] true)))
         <$> nodes
  /\ cleanImports (po_importTypes (parseOperationVariableDefinitions nodes))
  /\ forall x,
       x ∈ po_importTypes (parseOperationVariableDefinitions nodes)
       <-> isGQLScalarType x = false
           /\ exists n, n ∈ nodes /\ x = leafName (var_type n).
Proof.
  unfold parseOperationVariableDefinitions.
  destruct (foldl_addVariable nodes (mkPreparedObject "Arguments" [] []))
    as (Hname & Hfields & Hclean & Helem). simpl in *.
  split_and!; [done|done|apply Hclean, cleanImports_nil|].
  intros x. rewrite Helem, elem_of_nil. tauto.
Qed.

(** ** Selection Projector *)

Lemma foldl_addObjectFieldOf prefix selections : forall acc,
  let fields := foldl (addObjectFieldOf prefix) acc selections in
  pf_name <$> fields = (pf_name <$> acc) ++ fieldNames selections
  /\ (Forall (fun f => pf_type f = prefix +:+ "." +:+ pf_name f) acc ->
      Forall (fun f => pf_type f = prefix +:+ "." +:+ pf_name f) fields).
Proof.
  induction selections as [|s selections IH]; intros acc; simpl.
  - by rewrite app_nil_r.
  - destruct s as [[name sel]| |]; simpl.
    + destruct (IH (acc ++ [mkPreparedField name None
                              (prefix +:+ "." +:+ name)]))
        as [Hnames Htypes].
      rewrite Hnames, fmap_app, <- app_assoc. split; [done|].
      intros Hacc. apply Htypes, Forall_app. split; [done|].
      by apply Forall_singleton.
    + apply IH.
    + apply IH.
Qed.

Lemma reduceNamespaceFields_names convert selections :
  (forall name sel f,
     convert (mkFieldNode name sel) = Return f ->
     namespaceFieldName f = name) ->
  forall acc fields,
    reduceNamespaceFields convert selections acc = Return fields ->
    namespaceFieldName <$> fields
    = (namespaceFieldName <$> acc) ++ fieldNames selections.
Proof.
  intros Hconvert.
  induction selections as [|s selections IH]; intros acc fields; simpl.
  - intros [= <-]. by rewrite app_nil_r.
  - destruct s as [[name sel]| |]; [|apply IH|apply IH].
    destruct (convert (mkFieldNode name sel)) as [f|] eqn:Hf; simpl;
      [|done].
    intros Hred. rewrite (IH _ _ Hred), fmap_app, <- app_assoc. simpl.
    by rewrite (Hconvert _ _ _ Hf).
Qed.

Lemma fieldNodeToNamespaceField_name types rootNode prevPath name sel f :
  fieldNodeToNamespaceField types (mkFieldNode name sel) rootNode prevPath
  = Return f ->
  namespaceFieldName f = name.
Proof.
  rewrite fieldNodeToNamespaceField_unfold. simpl.
  destruct (getIn types rootNode _) as [field|]; simpl; [|done].
  destruct sel as [selections|]; [|by intros [= <-]].
  destruct (selectionSetToNamespaceFields _ _ _ _); simpl; [|done].
  by intros [= <-].
Qed.

(** X13. The namespace field projected from a field node carries the
    name of the node.  Without nested selection set it is a leaf holding
    the resolved definition of the type of the field found at the path;
    with one it is a composite whose output type is that type, as
    declared, and whose flat fields and children both carry the names of
    the nested field selections, in order, each flat field having the type
    [<node name>.<field name>]. *)
Theorem fieldNodeToNamespaceField_shape types rootNode prevPath name sel f :
  fieldNodeToNamespaceField types (mkFieldNode name sel) rootNode prevPath
  = Return f ->
  exists field,
    getIn types rootNode
      (if (0 <? String.length prevPath)%nat
       then prevPath +:+ "." +:+ name else name)
    = Return field
    /\ match sel, f with
       | None, LeafField n type =>
           n = name
           /\ type = getIOTypeDefinition (typeOf field) [] true
       | Some selections, CompositeField n type children =>
           n = name /\ st_name type = name
           /\ st_outputType type = typeOf field
           /\ pf_name <$> st_fields type = fieldNames selections
           /\ Forall (fun p => pf_type p = name +:+ "." +:+ pf_name p)
                (st_fields type)
           /\ namespaceFieldName <$> children = fieldNames selections
       | _, _ => False
       end.
Proof.
  rewrite fieldNodeToNamespaceField_unfold. simpl.
  destruct (getIn types rootNode _) as [field|]; simpl; [|done].
  destruct sel as [selections|].
  - destruct (selectionSetToNamespaceFields _ _ _ _) as [children|]
      eqn:Hchildren; simpl; [|done].
    intros [= <-]. exists field. split; [done|]. simpl.
    destruct (foldl_addObjectFieldOf name selections []) as [Hn Ht].
    split_and!; try done.
    + by apply Ht.
    + apply (reduceNamespaceFields_names _ _
               (fieldNodeToNamespaceField_name types rootNode _)
               [] children Hchildren).
  - intros [= <-]. by exists field.
Qed.

Lemma fieldNodeToNamespaceField_shape_witness :
  exists f field,
    fieldNodeToNamespaceField Example.types
      (mkFieldNode "posts" (Some [Example.leaf "id"]))
      (Some Example.Query) ""
    = Return f
    /\ getIn Example.types (Some Example.Query) "posts" = Return field.
Proof.
  eexists.
  destruct (fieldNodeToNamespaceField_shape Example.types
              (Some Example.Query) "" "posts" (Some [Example.leaf "id"])
              _ eq_refl) as (field & Hget & _).
  by exists field.
Defined.

(** The steps of [parseOperationDefinitionNode] that succeeded when it
    returns. *)
Lemma parseOperationDefinitionNode_inv node schema text o :
  parseOperationDefinitionNode node schema text = Return o ->
  exists name n namespace,
    op_name node = Some name
    /\ toCamelCase name = Return n
    /\ selectionSetToRootNamespace (typeMap schema) (op_selectionSet node)
         (n +:+ kindSuffix (op_operation node))
         (parseOperationVariableDefinitions (op_variableDefinitions node))
         (getOperationRootNode schema (op_operation node))
       = Return namespace
    /\ o = mkOperation (name +:+ kindSuffix (op_operation node))
             (slice text (op_loc node).1 (op_loc node).2)
             (mkSelection (name +:+ kindSuffix (op_operation node))
                (selectionSetToObjectFields (op_selectionSet node)
                   (n +:+ kindSuffix (op_operation node))))
             namespace
             (addAll
                (addAll []
                   (po_importTypes
                      (parseOperationVariableDefinitions
                         (op_variableDefinitions node))))
                (ns_importTypes namespace)).
Proof.
  unfold parseOperationDefinitionNode.
  destruct (op_name node) as [name|]; simpl; [|done].
  unfold getCompiledOperationName, getCompiledOperationNamespaceName.
  rewrite toCamelCase_kind. simpl.
  destruct (toCamelCase name) as [n|] eqn:Hn; simpl; [|done].
  destruct (selectionSetToRootNamespace _ _ _ _ _) as [namespace|]
    eqn:Hnamespace; simpl; [|done].
  intros [= <-]. by exists name, n, namespace.
Qed.

(** X14. In an assembled operation, the flat selection and the namespace
    list the same field names, those of the field selections of the
    operation in their order; every flat field has the type
    [<namespace name>.<field name>]; the selection is named as the
    operation, the operation name followed by the capitalised kind, and the
    namespace by the camel-cased operation name followed by the kind; the
    signature is the text between the operation's positions. *)
Theorem operation_views_consistent node schema text o :
  parseOperationDefinitionNode node schema text = Return o ->
  let selection := operation_selection o in
  let namespace := operation_namespace o in
  pf_name <$> sel_fields selection = fieldNames (op_selectionSet node)
  /\ namespaceFieldName <$> ns_fields namespace
     = fieldNames (op_selectionSet node)
  /\ Forall (fun f => pf_type f = ns_name namespace +:+ "." +:+ pf_name f)
       (sel_fields selection)
  /\ sel_name selection = operation_name o
  /\ (exists name n,
        op_name node = Some name /\ toCamelCase name = Return n
        /\ operation_name o = name +:+ kindSuffix (op_operation node)
        /\ ns_name namespace = n +:+ kindSuffix (op_operation node))
  /\ ns_args namespace
     = parseOperationVariableDefinitions (op_variableDefinitions node)
  /\ operation_signature o = slice text (op_loc node).1 (op_loc node).2.
Proof.
  intros (name & n & namespace & Hname & Hn & Hns & ->)
    %parseOperationDefinitionNode_inv. simpl.
  revert Hns. unfold selectionSetToRootNamespace.
  destruct (selectionSetToNamespaceFields _ _ _ _) as [fields|] eqn:Hfields;
    simpl; [|done].
  intros [= <-]. simpl.
  destruct (foldl_addObjectFieldOf
              (n +:+ kindSuffix (op_operation node))
              (op_selectionSet node) []) as [Hnames Htypes].
  split_and!; try done.
  - apply (reduceNamespaceFields_names _ _
             (fieldNodeToNamespaceField_name (typeMap schema)
                (getOperationRootNode schema (op_operation node)) "")
             [] fields Hfields).
  - by apply Htypes.
  - by exists name, n.
Qed.

Lemma operation_views_consistent_witness :
  exists o,
    parseOperationDefinitionNode
      (mkOperationDefinition (Some "posts") query []
         [Field (mkFieldNode "posts" (Some [Example.leaf "id"]));
          FragmentSpread "Rest"] (0, 36)%nat)
      Example.queryOnly "query posts { posts { id } ...Rest }"
    = Return o
    /\ pf_name <$> sel_fields (operation_selection o) = ["posts"]
    /\ namespaceFieldName <$> ns_fields (operation_namespace o) = ["posts"].
Proof.
  eexists. split; [reflexivity|].
  destruct (operation_views_consistent
              (mkOperationDefinition (Some "posts") query []
                 [Field (mkFieldNode "posts" (Some [Example.leaf "id"]));
                  FragmentSpread "Rest"] (0, 36)%nat)
              Example.queryOnly "query posts { posts { id } ...Rest }"
              _ eq_refl) as (Hflat & Hns & _).
  by split.
Defined.

Lemma reduceNamespaceFields_Forall (Q : OperationNamespaceField -> Prop)
    convert selections :
  Forall (fun s => match s with
                   | Field f => forall nf, convert f = Return nf -> Q nf
                   | _ => True
                   end) selections ->
  forall acc fields,
    Forall Q acc ->
    reduceNamespaceFields convert selections acc = Return fields ->
    Forall Q fields.
Proof.
  induction 1 as [|s selections Hs _ IH]; intros acc fields Hacc; simpl.
  - by intros [= <-].
  - destruct s as [f| |]; [|by apply IH|by apply IH].
    destruct (convert f) as [nf|] eqn:Hf; simpl; [|done].
    apply IH, Forall_app. split; [done|]. apply Forall_singleton.
    by apply Hs.
Qed.

Lemma flat_map_getImportTypes_custom fields :
  Forall (fun f => Forall (fun t => isGQLScalarType t = false)
                     (getImportTypes f)) fields ->
  Forall (fun t => isGQLScalarType t = false)
    (flat_map getImportTypes fields).
Proof.
  induction 1 as [|f fields Hf _ IH]; simpl; [done|].
  apply Forall_app. by split.
Qed.

(** The import list of a projected namespace field names no built-in
    scalar. *)
Lemma fieldNodeToNamespaceField_custom types rootNode node :
  forall prevPath f,
    fieldNodeToNamespaceField types node rootNode prevPath = Return f ->
    Forall (fun t => isGQLScalarType t = false) (getImportTypes f).
Proof.
  induction node as [name|name selections IH] using FieldNode_nested_ind;
    intros prevPath f; rewrite fieldNodeToNamespaceField_unfold; simpl;
    (destruct (getIn types rootNode _) as [field|]; simpl; [|done]).
  - intros [= <-]. simpl.
    apply (addAll_clean [] _ cleanImports_nil).
    apply (getIOTypeDefinition_imports _ [] true cleanImports_nil).
  - unfold selectionSetToNamespaceFields.
    destruct (reduceNamespaceFields _ _ _) as [children|] eqn:Hchildren;
      simpl; [|done].
    intros [= <-]. simpl.
    apply (addAll_clean [] _ cleanImports_nil).
    apply flat_map_getImportTypes_custom.
    refine (reduceNamespaceFields_Forall _ _ _ _ [] children
              (Forall_nil_2 _) Hchildren).
    eapply Forall_impl; [exact IH|]. simpl.
    intros [g| |] Hg; [|done|done]. intros nf. apply Hg.
Qed.

(** X15. The import list of an assembled operation has no duplicate and
    names no built-in scalar; it holds exactly the names imported by the
    variables and by the namespace; and the import list of the namespace
    names no built-in scalar either. *)
Theorem operation_imports_clean node schema text o :
  parseOperationDefinitionNode node schema text = Return o ->
  cleanImports (operation_importTypes o)
  /\ (forall x,
        x ∈ operation_importTypes o
        <-> x ∈ po_importTypes
                  (parseOperationVariableDefinitions
                     (op_variableDefinitions node))
            \/ x ∈ ns_importTypes (operation_namespace o))
  /\ Forall (fun t => isGQLScalarType t = false)
       (ns_importTypes (operation_namespace o)).
Proof.
  intros (name & n & namespace & Hname & Hn & Hns & ->)
    %parseOperationDefinitionNode_inv. simpl.
  destruct (foldl_addVariable (op_variableDefinitions node)
              (mkPreparedObject "Arguments" [] []))
    as (_ & _ & Hargs & _).
  specialize (Hargs cleanImports_nil).
  fold (parseOperationVariableDefinitions (op_variableDefinitions node))
    in Hargs.
  assert (Hcustom : Forall (fun t => isGQLScalarType t = false)
                      (ns_importTypes namespace)).
  { revert Hns. unfold selectionSetToRootNamespace,
      selectionSetToNamespaceFields.
    destruct (reduceNamespaceFields _ _ _) as [fields|] eqn:Hfields;
      simpl; [|done].
    intros [= <-]. simpl. apply flat_map_getImportTypes_custom.
    refine (reduceNamespaceFields_Forall _ _ _ _ [] fields
              (Forall_nil_2 _) Hfields).
    apply Forall_forall. intros [g| |] _; [|done|done]. intros nf.
    apply fieldNodeToNamespaceField_custom. }
  split_and!; [|intros x|done].
  - apply addAll_clean; [|done].
    apply addAll_clean; [apply cleanImports_nil|apply Hargs].
  - rewrite !addAll_elem_of, elem_of_nil. tauto.
Qed.

Lemma operation_imports_clean_witness :
  exists o,
    parseOperationDefinitionNode
      (mkOperationDefinition (Some "Dates") query
         [mkVariableDefinition "since" (NamedType "DateTime")]
         Example.twoPosts (0, 0)%nat)
      Example.queryOnly ""
    = Return o
    /\ operation_importTypes o = ["DateTime"]
    /\ cleanImports (operation_importTypes o).
Proof.
  eexists. split; [reflexivity|]. split; [reflexivity|].
  by apply (operation_imports_clean
              (mkOperationDefinition (Some "Dates") query
                 [mkVariableDefinition "since" (NamedType "DateTime")]
                 Example.twoPosts (0, 0)%nat)
              Example.queryOnly "").
Defined.

(** ** Named types *)

(** X18. [parseNamedType] returns [null] exactly for a type without
    declaration node; it returns a record for every declared scalar, enum
    and union; and it raises only for a declared object, interface or
    input-object type whose name cannot be camel-cased, in which case it
    does raise. *)
Theorem parseNamedType_result type :
  (parseNamedType type = Return None <-> astNode type = None)
  /\ (throws (parseNamedType type)
      <-> astNode type <> None
          /\ ((exists t,
                 (type = ObjectType t \/ type = InterfaceType t)
                 /\ throws (toCamelCase (obj_name t)))
              \/ exists t,
                   type = InputObjectType t
                   /\ throws (toCamelCase (inobj_name t)))).
Proof.
  unfold parseNamedType. destruct (astNode type) as [node|] eqn:Hnode.
  - split.
    + split; [|done].
      destruct type as [| | |t|t|t]; try done;
        [destruct (parseObjectOrInterfaceType t)
        |destruct (parseObjectOrInterfaceType t)
        |destruct (parseInputObjectType t)]; done.
    + destruct type as [| | |t|t|t]; simpl.
      1-3: split; [by intros [e He]|].
      1-3: by intros (_ & [(t & [?|?] & _)|(t & ? & _)]).
      * unfold parseObjectOrInterfaceType.
        destruct (toCamelCase (obj_name t)) as [n|e] eqn:Hn; simpl; split.
        -- by intros [e He].
        -- intros (_ & [(t' & [[= <-]|?] & [e He])|(t' & ? & _)]);
             congruence.
        -- intros _. split; [done|]. left. exists t. split; [by left|].
           rewrite Hn. by eexists.
        -- intros _. by eexists.
      * unfold parseObjectOrInterfaceType.
        destruct (toCamelCase (obj_name t)) as [n|e] eqn:Hn; simpl; split.
        -- by intros [e He].
        -- intros (_ & [(t' & [?|[= <-]] & [e He])|(t' & ? & _)]);
             congruence.
        -- intros _. split; [done|]. left. exists t. split; [by right|].
           rewrite Hn. by eexists.
        -- intros _. by eexists.
      * unfold parseInputObjectType.
        destruct (toCamelCase (inobj_name t)) as [n|e] eqn:Hn; simpl; split.
        -- by intros [e He].
        -- intros (_ & [(t' & [?|?] & _)|(t' & [= <-] & [e He])]);
             congruence.
        -- intros _. split; [done|]. right. exists t. split; [done|].
           rewrite Hn. by eexists.
        -- intros _. by eexists.
  - split; [done|]. split; [by intros [e He]|by intros [? _]].
Qed.

(** ** Entity Extractor *)

Lemma foldl_prepareArgument_fields args : forall argAcc,
  po_name (foldl prepareArgument argAcc args) = po_name argAcc
  /\ po_fields (foldl prepareArgument argAcc args)
     = po_fields argAcc
       ++ ((fun a =>
              mkPreparedField (arg_name a) (arg_description a)
                (definition (getIOTypeDefinition (arg_type a) [] true)))
             <$> args).
Proof.
  induction args as [|arg args IH]; intros argAcc; simpl.
  - by rewrite app_nil_r.
  - destruct (IH (prepareArgument argAcc arg)) as [-> ->].
    unfold prepareArgument.
    destruct (getIOTypeDefinition (arg_type arg) [] true) as [d imps].
    simpl. by rewrite <- app_assoc.
Qed.

Lemma foldl_addObjectField_records formattedName fields : forall acc,
  entity_fields (foldl (addObjectField formattedName) acc fields)
    = entity_fields acc
      ++ ((fun f =>
             mkPreparedField (field_name f) (field_description f)
               (formattedName +:+ "." +:+ field_name f)) <$> fields)
  /\ namespace_fields (foldl (addObjectField formattedName) acc fields)
     = namespace_fields acc
       ++ ((fun f =>
              mkEntityNamespaceField (field_name f) (field_description f)
                (Some (argumentsRecord f))
                (definition (getIOTypeDefinition (field_type f) [] true)))
             <$> fields)
  /\ namespace_description
       (foldl (addObjectField formattedName) acc fields)
     = namespace_description acc.
Proof.
  induction fields as [|f fields IH]; intros acc; simpl.
  - by rewrite !app_nil_r.
  - destruct (IH (addObjectField formattedName acc f)) as (-> & -> & ->).
    unfold addObjectField, argumentsRecord.
    destruct (getIOTypeDefinition (field_type f) [] true) as [d imps].
    simpl. by rewrite <- !app_assoc.
Qed.

(** X20. Extraction treats every field on its own: the flat fields and the
    namespace fields of an extracted object or interface entity are the
    declared fields mapped one by one, with their descriptions; a
    namespace field has as type the definition its field type renders to
    and carries an [Arguments] record listing the field's arguments in
    order, each with its description and rendered type; the namespace
    keeps the description of the type. *)
Theorem entity_records type e :
  parseObjectOrInterfaceType type = Return e ->
  entity_fields e
    = (fun f =>
         mkPreparedField (field_name f) (field_description f)
           (entity_name e +:+ "." +:+ field_name f)) <$> obj_fields type
  /\ namespace_fields e
     = (fun f =>
          mkEntityNamespaceField (field_name f) (field_description f)
            (Some (argumentsRecord f))
            (definition (getIOTypeDefinition (field_type f) [] true)))
         <$> obj_fields type
  /\ namespace_description e = obj_description type
  /\ forall f,
       po_name (argumentsRecord f) = "Arguments"
       /\ po_fields (argumentsRecord f)
          = (fun a =>
               mkPreparedField (arg_name a) (arg_description a)
                 (definition (getIOTypeDefinition (arg_type a) [] true)))
              <$> field_args f.
Proof.
  intros Hparse.
  pose proof (parseObjectOrInterfaceType_name type) as Hname.
  rewrite Hparse in Hname. revert Hparse.
  unfold parseObjectOrInterfaceType. rewrite Hname. simpl.
  intros [= He].
  destruct (foldl_addObjectField_records (entity_name e) (obj_fields type)
              (mkEntity (entity_name e) [] (entity_name e)
                 (obj_description type) [] []))
    as (Hflat & Hns & Hdesc).
  rewrite He in Hflat, Hns, Hdesc.
  split_and!; [done|done|done|].
  intros f. unfold argumentsRecord.
  by destruct (foldl_prepareArgument_fields (field_args f)
                 (mkPreparedObject "Arguments" [] [])) as [-> ->].
Qed.

Lemma entity_records_witness :
  exists e,
    parseObjectOrInterfaceType Example.Query = Return e
    /\ nf_type <$> namespace_fields e
       = ["PostedPost | null"; "PostedPost[]"].
Proof.
  eexists. split; [reflexivity|].
  destruct (entity_records Example.Query _ eq_refl) as (_ & -> & _).
  reflexivity.
Defined.

(** ** Selection Projector *)

Lemma getIn_unknown_root_field types root name :
  sepFree "." name = true ->
  getField (obj_fields root) name = None ->
  getIn types (Some root) name
  = Throw (Error ("Unable to find path " +:+ name)).
Proof.
  intros Hname Hget. rewrite getIn_findField. unfold findField.
  pose proof (split_of_sepFree _ _ Hname) as Hsplit. unfold split in Hsplit.
  rewrite splitPath_splitOn.
  destruct (splitOn "." name) as [first rest]. simpl in Hsplit.
  injection Hsplit as -> ->. by rewrite Hget.
Qed.

Lemma reduceNamespaceFields_cons convert f rest acc :
  reduceNamespaceFields convert (Field f :: rest) acc
  = let* nf := convert f in
    reduceNamespaceFields convert rest (acc ++ [nf]).
Proof. reflexivity. Qed.

Lemma reduceNamespaceFields_no_TypeError convert selections :
  Forall (fun s => match s with
                   | Field f => convert f <> Throw TypeError
                   | _ => True
                   end) selections ->
  forall acc, reduceNamespaceFields convert selections acc <> Throw TypeError.
Proof.
  induction 1 as [|s selections Hs _ IH]; intros acc; simpl; [done|].
  destruct s as [g| |]; [|apply IH|apply IH].
  destruct (convert g) as [nf|e] eqn:Hg; simpl; [apply IH|].
  intros [= ->]. by apply Hs.
Qed.

(** With a root object type at hand, projecting a field node never raises
    a [TypeError]. *)
Lemma fieldNodeToNamespaceField_no_TypeError types root node :
  forall prevPath,
    fieldNodeToNamespaceField types node (Some root) prevPath
    <> Throw TypeError.
Proof.
  induction node as [name|name selections IH] using FieldNode_nested_ind;
    intros prevPath; rewrite fieldNodeToNamespaceField_unfold; simpl;
    (destruct (getIn_cases types root
                 (if (0 <? String.length prevPath)%nat
                  then prevPath +:+ "." +:+ name else name))
      as [[field ->]| ->]; simpl; [|done]); [done|].
  unfold selectionSetToNamespaceFields.
  destruct (reduceNamespaceFields _ _ _) as [children|e] eqn:Hchildren;
    simpl; [done|].
  intros [= ->]. revert Hchildren.
  apply reduceNamespaceFields_no_TypeError.
  eapply Forall_impl; [exact IH|]. simpl. intros [g| |] Hg; [|done|done].
  apply Hg.
Qed.

Lemma reduceNamespaceFields_pathError types root path selections :
  forall acc e,
    reduceNamespaceFields
      (fun s => fieldNodeToNamespaceField types s (Some root) path)
      selections acc = Throw e ->
    exists p, e = Error ("Unable to find path " +:+ p).
Proof.
  intros acc e He.
  assert (Hnav : navigatorError e).
  { eapply reduceNamespaceFields_error; [|exact He].
    apply Forall_forall. intros s _ f _ e'.
    apply fieldNodeToNamespaceField_error. }
  destruct Hnav as [->|Hp]; [|done]. exfalso. revert He.
  apply reduceNamespaceFields_no_TypeError.
  apply Forall_forall. intros [g| |] _; [|done|done].
  apply fieldNodeToNamespaceField_no_TypeError.
Qed.

(** X19. Against a root object type, projecting a selection set that
    selects, at its top level, a field the root type does not have always
    fails, and what a failing projection raises is always the navigator's
    [Unable to find path ...] error; when the unknown field is the only
    selection, the error names it. *)
Theorem projection_unknown_field types root selections name sel :
  sepFree "." name = true ->
  getField (obj_fields root) name = None ->
  Field (mkFieldNode name sel) ∈ selections ->
  (exists p,
     selectionSetToNamespaceFields types selections (Some root) ""
     = Throw (Error ("Unable to find path " +:+ p)))
  /\ selectionSetToNamespaceFields types
       [Field (mkFieldNode name sel)] (Some root) ""
     = Throw (Error ("Unable to find path " +:+ name)).
Proof.
  intros Hname Hget Hin.
  assert (Hf : forall sel',
             fieldNodeToNamespaceField types (mkFieldNode name sel')
               (Some root) ""
             = Throw (Error ("Unable to find path " +:+ name))).
  { intros sel'. rewrite fieldNodeToNamespaceField_unfold. simpl.
    by rewrite (getIn_unknown_root_field _ _ _ Hname Hget). }
  split.
  - unfold selectionSetToNamespaceFields.
    destruct (reduceNamespaceFields _ selections []) as [fields|e] eqn:Hred.
    + exfalso. revert Hred. generalize (@nil OperationNamespaceField).
      induction selections as [|s selections IH]; intros acc;
        [by apply elem_of_nil in Hin|].
      apply elem_of_cons in Hin as [<-|Hin].
      * rewrite reduceNamespaceFields_cons. cbv beta. by rewrite Hf.
      * destruct s as [g| |]; [|by apply IH|by apply IH].
        rewrite reduceNamespaceFields_cons. cbv beta.
        destruct (fieldNodeToNamespaceField types g (Some root) "");
          [by apply IH|done].
    + apply reduceNamespaceFields_pathError in Hred as [p ->]. by exists p.
  - unfold selectionSetToNamespaceFields.
    rewrite reduceNamespaceFields_cons. cbv beta. by rewrite Hf.
Qed.

Lemma projection_unknown_field_witness :
  selectionSetToNamespaceFields Example.types
    [Field (mkFieldNode "comments" None)] (Some Example.Query) ""
  = Throw (Error "Unable to find path comments").
Proof.
  by apply (projection_unknown_field Example.types Example.Query
              [Field (mkFieldNode "comments" None)] "comments" None);
    [| |apply list_elem_of_here].
Defined.

Lemma addInputField_records formattedName acc f :
  entity_fields (addInputField formattedName acc f)
    = entity_fields acc
      ++ [mkPreparedField (input_name f) (input_description f)
            (formattedName +:+ "." +:+ input_name f)]
  /\ namespace_fields (addInputField formattedName acc f)
     = namespace_fields acc
       ++ [mkEntityNamespaceField (input_name f) (input_description f) None
             (definition (getIOTypeDefinition (input_type f) [] true))]
  /\ entity_importTypes (addInputField formattedName acc f)
     = addAll (entity_importTypes acc)
         (pushCustom [] (getFirstNonWrappingType (input_type f))).
Proof.
  unfold addInputField.
  pose proof (getIOTypeDefinition_importTypes (input_type f) [] true) as H.
  destruct (getIOTypeDefinition (input_type f) [] true) as [d imps].
  simpl in *. by subst.
Qed.

Lemma foldl_addInputField_records formattedName fields : forall acc,
  let e := foldl (addInputField formattedName) acc fields in
  entity_fields e
    = entity_fields acc
      ++ ((fun f =>
             mkPreparedField (input_name f) (input_description f)
               (formattedName +:+ "." +:+ input_name f)) <$> fields)
  /\ namespace_fields e
     = namespace_fields acc
       ++ ((fun f =>
              mkEntityNamespaceField (input_name f) (input_description f)
                None
                (definition (getIOTypeDefinition (input_type f) [] true)))
             <$> fields)
  /\ (cleanImports (entity_importTypes acc) ->
      cleanImports (entity_importTypes e))
  /\ forall x,
       x ∈ entity_importTypes e
       <-> x ∈ entity_importTypes acc
           \/ (isGQLScalarType x = false
               /\ exists f,
                    f ∈ fields
                    /\ x = getFirstNonWrappingType (input_type f)).
Proof.
  induction fields as [|f fields IH]; intros acc; simpl.
  - rewrite !app_nil_r. split_and!; try done. intros x.
    split; [by left|]. intros [?|(_ & f & Hf & _)]; [done|].
    by apply elem_of_nil in Hf.
  - destruct (IH (addInputField formattedName acc f))
      as (Hflat & Hns & Hclean & Helem).
    destruct (addInputField_records formattedName acc f)
      as (Hflat1 & Hns1 & Himps).
    rewrite Hflat, Hns, Hflat1, Hns1, <- !app_assoc.
    split_and!; try done.
    + intros Hacc. apply Hclean. rewrite Himps.
      apply addAll_clean; [done|].
      apply Forall_forall. intros x Hx.
      by apply pushCustom_nil_elem_of in Hx as [? _].
    + intros x. rewrite Helem, Himps, addAll_elem_of,
        pushCustom_nil_elem_of. split.
      * intros [[?|[Hx ->]]|(Hx & g & Hg & ->)]; [by left| |].
        -- right. split; [done|]. exists f. split; [left|done].
        -- right. split; [done|]. exists g. split; [by right|done].
      * intros [?|(Hx & g & Hg & ->)]; [by left; left|].
        apply elem_of_cons in Hg as [->|Hg].
        -- left. by right.
        -- right. split; [done|]. by exists g.
Qed.

(** X21. An extracted input-object entity is built field by field: its
    flat fields and namespace fields are the declared fields mapped one by
    one with their descriptions, no namespace field has arguments, each has
    as type the definition its field type renders to; the import list has
    no duplicate and names exactly the custom types under the wrappers of
    the field types. *)
Theorem input_entity_records type e :
  parseInputObjectType type = Return e ->
  entity_fields e
    = (fun f =>
         mkPreparedField (input_name f) (input_description f)
           (entity_name e +:+ "." +:+ input_name f)) <$> inobj_fields type
  /\ namespace_fields e
     = (fun f =>
          mkEntityNamespaceField (input_name f) (input_description f) None
            (definition (getIOTypeDefinition (input_type f) [] true)))
         <$> inobj_fields type
  /\ cleanImports (entity_importTypes e)
  /\ forall x,
       x ∈ entity_importTypes e
       <-> isGQLScalarType x = false
           /\ exists f,
                f ∈ inobj_fields type
                /\ x = getFirstNonWrappingType (input_type f).
Proof.
  intros Hparse.
  pose proof (parseInputObjectType_name type) as Hname.
  rewrite Hparse in Hname. revert Hparse.
  unfold parseInputObjectType. rewrite Hname. simpl. intros [= He].
  destruct (foldl_addInputField_records (entity_name e) (inobj_fields type)
              (mkEntity (entity_name e) [] (entity_name e)
                 (inobj_description type) [] []))
    as (Hflat & Hns & Hclean & Helem).
  simpl in *. rewrite He in Hflat, Hns, Hclean, Helem.
  split_and!; [done|done|apply Hclean, cleanImports_nil|].
  intros x. rewrite Helem, elem_of_nil. tauto.
Qed.

Lemma input_entity_records_witness :
  exists e,
    parseInputObjectType Example.PostsInput = Return e
    /\ entity_importTypes e = []
    /\ cleanImports (entity_importTypes e).
Proof.
  eexists. split; [reflexivity|]. split; [reflexivity|].
  by apply (input_entity_records Example.PostsInput).
Defined.
